(** * clk_extension_eth: the chain walker, the ABI argument coercer,
      the response normaliser and the call dispatch of [eth.py]

    The development embeds the functions of [src/python/eth.py] as Rocq
    functions and proves the properties the specification states about them.

    Conventions of the embedding.
    - A Python [str] is a Rocq [string] holding the UTF-8 bytes of the text.
      Every test the source makes on text ([startswith], [endswith], [==],
      [in], [split("=")]) compares against ASCII patterns, and these commute
      with UTF-8 encoding.
    - Python [bytes] and [HexBytes] are [list byte].
    - Python [int] is [Z].
    - A call that can raise returns a [result]; the exception is carried in
      [Raise] and propagates through [x <- c ; k].
    - A generator is a state machine: a state type and a [next] function that
      returns the element it yields with the state it is suspended in, or
      stops, or raises.  Running a generator to its end needs a bound on the
      number of [next] calls, since Rocq functions terminate. *)

From Stdlib Require Import ZArith Lia Ascii String List.
From Stdlib Require Import Strings.Byte.
From stdpp Require Import base tactics option list strings pretty gmap sets.

Local Open Scope string_scope.
Local Open Scope list_scope.
Local Open Scope Z_scope.

(** ** The Python runtime, as far as [eth.py] uses it *)

Inductive exn : Type :=
| IndexError
| KeyError
| TypeError
| AttributeError
| ValueError (msg : string)
| JSONDecodeError
| UsageError (msg : string)
| Abort
| StopIteration
| SystemExit (code : Z)
| RpcError (msg : string).

Inductive result (A : Type) : Type :=
| Ok (a : A)
| Raise (e : exn).
Arguments Ok {A} a.
Arguments Raise {A} e.

Definition bind {A B : Type} (c : result A) (k : A -> result B) : result B :=
  match c with
  | Ok a => k a
  | Raise e => Raise e
  end.

Declare Scope py_scope.
Delimit Scope py_scope with py.
Notation "x <- c ; k" := (bind c (fun x => k))
  (at level 100, c at next level, right associativity) : py_scope.
Local Open Scope py_scope.

(** [[f(x) for x in l]]: the list comprehension evaluates [f] on the elements
    in order and raises at the first one that raises. *)
Fixpoint comprehension {A B : Type} (f : A -> result B) (l : list A)
  : result (list B) :=
  match l with
  | [] => Ok []
  | x :: l' => y <- f x; ys <- comprehension f l'; Ok (y :: ys)
  end.

#[global] Instance byte_eq_dec : EqDecision byte := Byte.byte_eq_dec.

(** What a generator does when [next] is called on it. *)
Inductive step (A S : Type) : Type :=
| Yield (a : A) (s : S)
| Stop
| Throw (e : exn).
Arguments Yield {A S} a s.
Arguments Stop {A S}.
Arguments Throw {A S} e.

(** How the run of a generator ended: [StopIteration], an exception, or the
    bound on the number of [next] calls was reached first. *)
Inductive ending : Type :=
| Exhausted
| Raised (e : exn)
| Pending.

(** [list(g)] for a generator [g] in state [s], with at most [fuel] calls of
    [next]: the elements yielded and how the run ended. *)
Fixpoint drain {A S : Type} (next : S -> step A S) (fuel : nat) (s : S)
  : list A * ending :=
  match fuel with
  | O => ([], Pending)
  | S fuel' =>
      match next s with
      | Yield a s' => let '(l, e) := drain next fuel' s' in (a :: l, e)
      | Stop => ([], Exhausted)
      | Throw e => ([], Raised e)
      end
  end.

(** [bytes.fromhex]: ASCII whitespace is skipped before each byte, and each
    byte is two hexadecimal digits. *)
Definition Py_ISSPACE (c : ascii) : bool :=
  let n := N_of_ascii c in
  (N.eqb n 32 || (N.leb 9 n && N.leb n 13))%N.

Definition hex_digit (c : ascii) : option N :=
  let n := N_of_ascii c in
  (if N.leb 48 n && N.leb n 57 then Some (n - 48)
   else if N.leb 97 n && N.leb n 102 then Some (n - 87)
   else if N.leb 65 n && N.leb n 70 then Some (n - 55)
   else None)%N.

Definition byte_of_nibbles (top bot : N) : byte :=
  byte_of_ascii (ascii_of_N (top * 16 + bot)).

Fixpoint fromhex (s : string) : result (list byte) :=
  match s with
  | EmptyString => Ok []
  | String c s' =>
      if Py_ISSPACE c then fromhex s'
      else
        match hex_digit c, s' with
        | Some top, String d s'' =>
            match hex_digit d with
            | Some bot => bs <- fromhex s''; Ok (byte_of_nibbles top bot :: bs)
            | None => Raise (ValueError "non-hexadecimal number found in fromhex() arg")
            end
        | _, _ => Raise (ValueError "non-hexadecimal number found in fromhex() arg")
        end
  end.

(** [bytes.hex]: two lowercase hexadecimal digits per byte. *)
Definition hex_char (n : N) : ascii :=
  (if N.ltb n 10 then ascii_of_N (48 + n) else ascii_of_N (87 + n))%N.

Fixpoint bytes_hex (bs : list byte) : string :=
  match bs with
  | [] => ""
  | b :: bs' =>
      let n := Byte.to_N b in
      String (hex_char (n / 16)) (String (hex_char (n mod 16)) (bytes_hex bs'))
  end.

(** [HexBytes.hex]: the same digits after [0x]. *)
Definition hexbytes_hex (bs : list byte) : string := "0x" +:+ bytes_hex bs.

(** ** Blocks, receipts and the node *)

Definition HexBytes : Type := list byte.

(** The blocks and receipts the node returns are [AttributeDict]s with these
    keys; a fetched block has fields, so it is a non-empty mapping and is
    true in [while b]. *)
Record Block : Type := mkBlock {
  hash : HexBytes;
  parentHash : HexBytes;
  timestamp : Z;
  transactions : list HexBytes
}.

Record Receipt : Type := mkReceipt {
  transactionHash : HexBytes;
  contractAddress : option string;
  tx_from : string;
  tx_to : option string
}.

#[global] Instance Block_eq_dec : EqDecision Block.
Proof. solve_decision. Defined.

#[global] Instance Receipt_eq_dec : EqDecision Receipt.
Proof. solve_decision. Defined.

(** [self.w3.eth]: the three requests the walker sends.  Each one can fail,
    and the failure is raised to the caller. *)
Record Node : Type := mkNode {
  get_block_latest : result Block;
  get_block : HexBytes -> result Block;
  wait_for_transaction_receipt : HexBytes -> result Receipt
}.

(** [HexBytes('0x000000000000000000000000000000'
             '0000000000000000000000000000000000')] *)
Definition genesis_parent_literal : string :=
  "000000000000000000000000000000" +:+ "0000000000000000000000000000000000".

Definition genesis_parent : HexBytes :=
  match fromhex genesis_parent_literal with
  | Ok bs => bs
  | Raise _ => []
  end.

Module Eth.

Record t : Type := mk {
  w3 : Node;
  myaddress : string
}.

(** *** [walk_blocks]

    The generator is created in state [Fresh]; it is suspended at its
    [yield b] in state [At b]. *)
Inductive walk_blocks_state : Type :=
| Fresh
| At (b : Block).

Definition walk_blocks (self : t) (s : walk_blocks_state)
  : step Block walk_blocks_state :=
  match s with
  | Fresh =>
      match get_block_latest (w3 self) with
      | Ok b => Yield b (At b)
      | Raise e => Throw e
      end
  | At b =>
      let b_hash := parentHash b in
      if bool_decide (b_hash = genesis_parent) then Stop
      else
        match get_block (w3 self) b_hash with
        | Ok b' => Yield b' (At b')
        | Raise e => Throw e
        end
  end.

(** *** [walk_transactions]

    The loop body for one block: the receipts are all fetched, then all
    yielded, then counted, then the limit is tested.  [limit] is [None] or
    an integer, and [if limit] is false for [None] and for [0]. *)
Definition limit_reached (limit : option Z) (accum : Z) : bool :=
  match limit with
  | None => false
  | Some l => negb (Z.eqb l 0) && Z.leb l accum
  end.

Fixpoint walk_transactions_from (self : t) (limit : option Z)
    (fuel : nat) (accum : Z) (s : walk_blocks_state)
  : list Receipt * ending :=
  match fuel with
  | O => ([], Pending)
  | S fuel' =>
      match walk_blocks self s with
      | Stop => ([], Exhausted)
      | Throw e => ([], Raised e)
      | Yield block s' =>
          match comprehension (wait_for_transaction_receipt (w3 self))
                              (transactions block) with
          | Raise e => ([], Raised e)
          | Ok txs =>
              let accum' := accum + Z.of_nat (length txs) in
              if limit_reached limit accum' then (txs, Exhausted)
              else
                let '(l, e) :=
                  walk_transactions_from self limit fuel' accum' s' in
                (txs ++ l, e)
          end
      end
  end.

Definition walk_transactions (self : t) (fuel : nat) (limit : option Z)
  : list Receipt * ending :=
  walk_transactions_from self limit fuel 0 Fresh.

(** *** [history], [myhistory], [filter_contract], [take_contracts] *)

(** [x in l] on a list of values that are [None] or a [str]. *)
Definition py_in (x : option string) (l : list (option string)) : bool :=
  existsb (fun y => bool_decide (x = y)) l.

Definition history (self : t) (fuel : nat) (address : string)
    (limit : option Z) : list Receipt * ending :=
  let '(txs, e) := walk_transactions self fuel limit in
  (filter (fun tx => py_in (Some address)
                       [contractAddress tx; Some (tx_from tx); tx_to tx] = true)
          txs, e).

Definition myhistory (self : t) (fuel : nat) (limit : option Z)
  : list Receipt * ending :=
  history self fuel (myaddress self) limit.

(** The truth value of [tx["contractAddress"]]: [None] and the empty string
    are false. *)
Definition truthy (a : option string) : bool :=
  match a with
  | None => false
  | Some s => negb (String.eqb s "")
  end.

(** What can be passed as [history]: a generator, given by what it yields
    and how it ends, or a list of receipts. *)
Inductive iterable : Type :=
| Generator (run : list Receipt * ending)
| PyList (items : list Receipt).

(** [bool(history)]: a generator object is always true; a list is true when
    it is not empty. *)
Definition iterable_truthy (h : iterable) : bool :=
  match h with
  | Generator _ => true
  | PyList [] => false
  | PyList (_ :: _) => true
  end.

(** [for tx in history] *)
Definition iterate (h : iterable) : list Receipt * ending :=
  match h with
  | Generator run => run
  | PyList items => (items, Exhausted)
  end.

(** [history or self.myhistory()], where [history] is [None] by default: the
    operator's own history is taken when no history is passed and when the
    one passed is false, as an empty list is. *)
Definition or_myhistory (self : t) (fuel : nat) (history : option iterable)
  : iterable :=
  match history with
  | Some h =>
      if iterable_truthy h then h else Generator (myhistory self fuel None)
  | None => Generator (myhistory self fuel None)
  end.

Definition filter_contract (self : t) (fuel : nat)
    (history : option iterable) : list Receipt * ending :=
  let '(txs, e) := iterate (or_myhistory self fuel history) in
  (filter (fun tx => truthy (contractAddress tx) = true) txs, e).

Definition take_contracts (self : t) (fuel : nat)
    (history : option iterable) : list (option string) * ending :=
  let '(txs, e) :=
    filter_contract self fuel (Some (or_myhistory self fuel history)) in
  (map contractAddress txs, e).

End Eth.

(** ** Python values

    The values that reach the coercer, the dispatcher and the normaliser:
    what [json.loads] returns, what the coercion rules build, and the response
    objects of the client library.  A dictionary keeps its items in insertion
    order.  Dictionary keys are the hashable scalars; [PObject] stands for an
    object of any other class (a float, a [Decimal], ...), named by its
    [repr]. *)

Inductive key : Type :=
| KNone
| KBool (b : bool)
| KInt (z : Z)
| KStr (s : string)
| KBytes (bs : list byte)
| KHexBytes (bs : list byte).

Inductive pyval : Type :=
| PNone
| PBool (b : bool)
| PInt (z : Z)
| PStr (s : string)
| PBytes (bs : list byte)
| PHexBytes (bs : list byte)
| PList (l : list pyval)
| PTuple (l : list pyval)
| PDict (items : list (key * pyval))
| PAttributeDict (items : list (key * pyval))
| PObject (repr : string).

#[global] Instance key_eq_dec : EqDecision key.
Proof. solve_decision. Defined.

(** [k1 == k2] for two keys; equal keys have equal hashes.  [True == 1],
    [False == 0], and a [HexBytes] equals the [bytes] with the same
    content. *)
Definition key_eqb (k1 k2 : key) : bool :=
  match k1, k2 with
  | KNone, KNone => true
  | KBool a, KBool b => Bool.eqb a b
  | KBool a, KInt z | KInt z, KBool a => Z.eqb z (if a then 1 else 0)
  | KInt a, KInt b => Z.eqb a b
  | KStr a, KStr b => String.eqb a b
  | (KBytes a | KHexBytes a), (KBytes b | KHexBytes b) => bool_decide (a = b)
  | _, _ => false
  end.

(** [d[k] = v]: an equal key keeps its place and its key object and takes
    the new value; a new key goes to the end.  The values are of any type:
    values in this part, references to objects in the part on the store. *)
Fixpoint dict_setitem {V : Type} (d : list (key * V)) (k : key) (v : V)
  : list (key * V) :=
  match d with
  | [] => [(k, v)]
  | (k', v') :: d' =>
      if key_eqb k' k then (k', v) :: d'
      else (k', v') :: dict_setitem d' k v
  end.

(** [d.update(items)], and [{k: v for k, v in items}] as the update of the
    empty dictionary. *)
Definition dict_update {V : Type} (d items : list (key * V))
  : list (key * V) :=
  fold_left (fun acc kv => dict_setitem acc kv.1 kv.2) items d.

Definition dict_of_items {V : Type} (items : list (key * V))
  : list (key * V) :=
  dict_update [] items.

(** [isinstance(v, dict)]: an [AttributeDict] is a mapping and not a
    [dict]. *)
Definition isinstance_dict (v : pyval) : bool :=
  match v with
  | PDict _ => true
  | _ => false
  end.

(** ** Text *)

Definition startswith (s pre : string) : bool := String.prefix pre s.

Definition endswith (s suf : string) : bool :=
  let n := String.length s in
  let m := String.length suf in
  (m <=? n)%nat && String.eqb (String.substring (n - m) m s) suf.

(** [s.split(sep)] for a separator of one character. *)
Fixpoint split (sep : ascii) (s : string) : list string :=
  match s with
  | EmptyString => [""]
  | String c s' =>
      if Ascii.eqb c sep then "" :: split sep s'
      else
        match split sep s' with
        | h :: t => String c h :: t
        | [] => [String c ""]
        end
  end.

(** [sep in s] for a separator of one character. *)
Fixpoint contains (sep : ascii) (s : string) : bool :=
  match s with
  | EmptyString => false
  | String c s' => Ascii.eqb c sep || contains sep s'
  end.

(** [sep.join(l)] *)
Fixpoint join (sep : string) (l : list string) : string :=
  match l with
  | [] => ""
  | [x] => x
  | x :: l' => x +:+ sep +:+ join sep l'
  end.

(** [int(s)], base ten, as CPython 3.11 computes it.

    A text that is not all ASCII is first rewritten: a character below 127
    stays, a Unicode white space becomes a space, a Unicode decimal digit
    becomes its ASCII digit, and any other character makes the text invalid.
    The tables are those of the Unicode database 14.0 of that release: the
    white space characters from 128 on, and the code points of the zeros of
    the decimal digits, each followed by its digits 1 to 9.  An all-ASCII
    text is taken as it is.

    Then white space ([Py_ISSPACE]: 9 to 13 and 32) is dropped at both ends,
    one sign is allowed, and the digits may be separated by single
    underscores.  A literal of more than 4300 digits, leading zeros
    counted, is refused: the default of [sys.set_int_max_str_digits].  A
    text that is not the UTF-8 encoding of code points is no [str], and is
    refused here. *)
Definition unicode_spaces : list N :=
  [133; 160; 5760; 8192; 8193; 8194; 8195; 8196; 8197; 8198; 8199; 8200;
   8201; 8202; 8232; 8233; 8239; 8287; 12288]%N.

Definition unicode_zeros : list N :=
  [1632; 1776; 1984; 2406; 2534; 2662; 2790; 2918; 3046; 3174; 3302; 3430;
   3558; 3664; 3792; 3872; 4160; 4240; 6112; 6160; 6470; 6608; 6784; 6800;
   6992; 7088; 7232; 7248; 42528; 43216; 43264; 43472; 43504; 43600; 44016;
   65296; 66720; 68912; 69734; 69872; 69942; 70096; 70384; 70736; 70864;
   71248; 71360; 71472; 71904; 72016; 72784; 73040; 73120; 92768; 92864;
   93008; 120782; 120792; 120802; 120812; 120822; 123200; 123632; 125264;
   130032]%N.

Definition Py_UNICODE_ISSPACE (ch : N) : bool :=
  existsb (N.eqb ch) unicode_spaces.

Definition Py_UNICODE_TODECIMAL (ch : N) : option N :=
  match find (fun z => N.leb z ch && N.ltb ch (z + 10))%N unicode_zeros with
  | Some z => Some (ch - z)%N
  | None => None
  end.

(** The code points of a text held as UTF-8; [None] when the bytes are not
    the encoding of a text. *)
Definition continuation (c : ascii) : option N :=
  let b := N_of_ascii c in
  if (N.leb 128 b && N.ltb b 192)%N then Some (b - 128)%N else None.

Fixpoint utf8_decode (s : string) : option (list N) :=
  match s with
  | EmptyString => Some []
  | String c s1 =>
      let b := N_of_ascii c in
      if (N.ltb b 128)%N then cons b <$> utf8_decode s1
      else if (N.leb 194 b && N.ltb b 224)%N then
        match s1 with
        | String c1 s2 =>
            match continuation c1 with
            | Some x1 => cons ((b - 192) * 64 + x1)%N <$> utf8_decode s2
            | None => None
            end
        | EmptyString => None
        end
      else if (N.leb 224 b && N.ltb b 240)%N then
        match s1 with
        | String c1 (String c2 s3) =>
            match continuation c1, continuation c2 with
            | Some x1, Some x2 =>
                let ch := ((b - 224) * 4096 + x1 * 64 + x2)%N in
                if (N.leb 2048 ch)%N then cons ch <$> utf8_decode s3 else None
            | _, _ => None
            end
        | _ => None
        end
      else if (N.leb 240 b && N.ltb b 245)%N then
        match s1 with
        | String c1 (String c2 (String c3 s4)) =>
            match continuation c1, continuation c2, continuation c3 with
            | Some x1, Some x2, Some x3 =>
                let ch :=
                  ((b - 240) * 262144 + x1 * 4096 + x2 * 64 + x3)%N in
                if (N.leb 65536 ch && N.ltb ch 1114112)%N
                then cons ch <$> utf8_decode s4 else None
            | _, _, _ => None
            end
        | _ => None
        end
      else None
  end.

Fixpoint is_ascii (s : string) : bool :=
  match s with
  | EmptyString => true
  | String c s' => (N.ltb (N_of_ascii c) 128)%N && is_ascii s'
  end.

(** [_PyUnicode_TransformDecimalAndSpaceToASCII]: at the first character
    that is neither it writes ['?'] and drops what follows. *)
Definition transform_char (ch : N) : option ascii :=
  if (N.ltb ch 127)%N then Some (ascii_of_N ch)
  else if Py_UNICODE_ISSPACE ch then Some " "%char
  else
    match Py_UNICODE_TODECIMAL ch with
    | Some d => Some (ascii_of_N (48 + d))
    | None => None
    end.

Fixpoint transform_chars (l : list N) : string :=
  match l with
  | [] => ""
  | ch :: l' =>
      match transform_char ch with
      | Some c => String c (transform_chars l')
      | None => "?"
      end
  end.

Definition transform_decimal_and_space_to_ascii (s : string)
  : option string :=
  if is_ascii s then Some s
  else
    match utf8_decode s with
    | Some l => Some (transform_chars l)
    | None => None
    end.

Fixpoint lstrip (s : string) : string :=
  match s with
  | String c s' => if Py_ISSPACE c then lstrip s' else s
  | EmptyString => s
  end.

Definition decimal_digit (c : ascii) : option Z :=
  let n := N_of_ascii c in
  if (N.leb 48 n && N.leb n 57)%N then Some (Z.of_N n - 48) else None.

(** The scan of [PyLong_FromString]: the run of digits and underscores at
    the head of the text, and what follows it. *)
Fixpoint scan (s : string) : string * string :=
  match s with
  | EmptyString => ("", "")
  | String c s' =>
      if Ascii.eqb c "_"%char || bool_decide (is_Some (decimal_digit c)) then
        let '(run, rest) := scan s' in (String c run, rest)
      else ("", s)
  end.

(** The digits after the first one; [acc] is the value read so far and
    [after_underscore] tells that the previous character was ['_']. *)
Fixpoint int_digits (s : string) (acc : Z) (after_underscore : bool)
  : option Z :=
  match s with
  | EmptyString => if after_underscore then None else Some acc
  | String c s' =>
      if Ascii.eqb c "_"%char then
        if after_underscore then None else int_digits s' acc true
      else
        match decimal_digit c with
        | Some d => int_digits s' (10 * acc + d) false
        | None => None
        end
  end.

(** The value of a run: it starts with a digit, has no two underscores in a
    row and does not end with one. *)
Definition int_unsigned (s : string) : option Z :=
  match s with
  | EmptyString => None
  | String c s' =>
      match decimal_digit c with
      | Some d => int_digits s' d false
      | None => None
      end
  end.

(** The number of digits of a run, the underscores left out. *)
Fixpoint count_digits (s : string) : Z :=
  match s with
  | EmptyString => 0
  | String c s' =>
      match decimal_digit c with
      | Some _ => 1 + count_digits s'
      | None => count_digits s'
      end
  end.

Definition int_max_str_digits : Z := 4300.

(** The run is checked first, then the number of its digits, and only then
    what follows the run, which may be white space only.  The two messages
    are given up to their fixed part: the first goes on with the literal,
    the second with the number of digits. *)
Definition int (s : string) : result Z :=
  match transform_decimal_and_space_to_ascii s with
  | None => Raise (ValueError "invalid literal for int() with base 10")
  | Some text =>
      let str := lstrip text in
      let '(negative, str) :=
        match str with
        | String "-"%char s' => (true, s')
        | String "+"%char s' => (false, s')
        | _ => (false, str)
        end in
      let '(run, rest) := scan str in
      match int_unsigned run with
      | None => Raise (ValueError "invalid literal for int() with base 10")
      | Some z =>
          if Z.ltb int_max_str_digits (count_digits run) then
            Raise (ValueError
                     "Exceeds the limit (4300 digits) for integer string conversion")
          else
            match lstrip rest with
            | EmptyString => Ok (if negative then - z else z)
            | String _ _ =>
                Raise (ValueError "invalid literal for int() with base 10")
            end
      end
  end.

(** [l[i]], where a negative index counts from the end. *)
Definition getitem {A : Type} (l : list A) (i : Z) : result A :=
  let j := if Z.leb 0 i then i else i + Z.of_nat (length l) in
  if Z.ltb j 0 then Raise IndexError
  else
    match nth_error l (Z.to_nat j) with
    | Some x => Ok x
    | None => Raise IndexError
    end.

(** ** The ABI *)

Record Input : Type := mkInput {
  input_name : string;
  input_type : string
}.

Record Output : Type := mkOutput {
  output_type : string
}.

(** An entry of the [abi] array.  The source reads [method.get("name")],
    [abi["inputs"]], [abi.get("outputs")] and [abi["stateMutability"]]. *)
Record Method : Type := mkMethod {
  method_name : option string;
  method_inputs : list Input;
  method_outputs : option (list Output);
  stateMutability : string
}.

(** ** What a command does to the outside world

    A command returns the events it caused, in order, with its result.  The
    answers of the outside world are read from [World]. *)
Inductive event : Type :=
| LogError (msg : string)
| Confirm (prompt : string)
| CallerCall (function : string) (args : list pyval)
    (kwargs : list (key * pyval))
| FunctionsTransact (function : string) (args : list pyval)
    (kwargs : list (key * pyval))
| WaitForTransactionReceipt (tx_hash : list byte)
| Print (v : pyval)
| PrintJson (v : pyval)
| Run (args : list string).

Record World : Type := mkWorld {
  confirm_answer : result bool;
  call_answer : result pyval;
  transact_answer : result (list byte);
  receipt_answer : result pyval
}.

Definition io (A : Type) : Type := list event * result A.

Definition io_ret {A : Type} (a : A) : io A := ([], Ok a).

Definition io_raise {A : Type} (e : exn) : io A := ([], Raise e).

Definition io_lift {A : Type} (r : result A) : io A := ([], r).

Definition io_emit {A : Type} (ev : event) (r : result A) : io A := ([ev], r).

Definition io_bind {A B : Type} (c : io A) (k : A -> io B) : io B :=
  match c with
  | (t1, Ok a) => let '(t2, r) := k a in (t1 ++ t2, r)
  | (t1, Raise e) => (t1, Raise e)
  end.

Declare Scope io_scope.
Delimit Scope io_scope with io.
Notation "x <~ c ; k" := (io_bind c (fun x => k))
  (at level 100, c at next level, right associativity) : io_scope.

(** ** [class ContractMethod] *)

Module ContractMethod.

(** [config.eth.abi], [self.function] and [self.args]. *)
Record t : Type := mk {
  eth_abi : list Method;
  function : string;
  args : list pyval
}.

Definition abi (self : t) : result Method :=
  getitem
    (filter (fun method => method_name method = Some (function self))
            (eth_abi self))
    0.

Definition inputs (self : t) : result (list Input) :=
  a <- abi self; Ok (method_inputs a).

Definition outputs (self : t) : result (option (list Output)) :=
  a <- abi self; Ok (method_outputs a).

Definition needed_names (self : t) : result (gset string) :=
  ins <- inputs self;
  Ok (list_to_set
        (map input_name
             (filter (fun input => input_name input <> "") ins))).

Definition _args (self : t) : list pyval :=
  filter (fun arg => isinstance_dict arg = false) (args self).

Definition dict_items (v : pyval) : list (key * pyval) :=
  match v with
  | PDict items => items
  | _ => []
  end.

Definition _kwargs (self : t) : list (key * pyval) :=
  fold_left (fun kwargs arg => dict_update kwargs (dict_items arg))
            (filter (fun arg => isinstance_dict arg = true) (args self))
            [].

(** [set(self._kwargs)]: the keys.  The names it is compared with are
    [str], and no key of another class equals a [str]. *)
Definition key_str (k : key) : option string :=
  match k with
  | KStr s => Some s
  | _ => None
  end.

Definition given_names (self : t) : gset string :=
  list_to_set (omap (fun kv => key_str kv.1) (_kwargs self)).

Definition missing_names (self : t) : result (gset string) :=
  needed <- needed_names self;
  Ok (needed ∖ given_names self).

(** [check]: the set is iterated in an order the language does not fix;
    [elements] stands for that order. *)
Definition check (self : t) : io bool :=
  match missing_names self with
  | Raise e => io_raise e
  | Ok missing_names =>
      if bool_decide (missing_names = ∅) then io_ret true
      else
        io_emit
          (LogError ("You need to provide values for "
                       +:+ join ", " (elements missing_names)))
          (Ok false)
  end.

(** [coerce]: the output of a call.  [output.hex()] exists on [bytes] and on
    [HexBytes]. *)
Definition coerce (self : t) (output : pyval) : result pyval :=
  outs <- outputs self;
  match outs with
  | Some (o :: _) =>
      if String.eqb (output_type o) "bytes32" then
        match output with
        | PBytes bs => Ok (PStr ("0x" +:+ bytes_hex bs))
        | PHexBytes bs => Ok (PStr ("0x" +:+ hexbytes_hex bs))
        | _ => Raise AttributeError
        end
      else Ok output
  | _ => Ok output
  end.

Definition call (w : World) (self : t) : io pyval :=
  (output <~ io_emit (CallerCall (function self) (_args self) (_kwargs self))
                     (call_answer w);
   io_lift (coerce self output))%io.

Definition transact (w : World) (self : t) : io pyval :=
  (tx_hash <~ io_emit (FunctionsTransact (function self) (_args self)
                                         (_kwargs self))
                      (transact_answer w);
   io_emit (WaitForTransactionReceipt tx_hash) (receipt_answer w))%io.

End ContractMethod.

(** ** [class ContractCallerArgs] *)

Module ContractCallerArgs.

Section WithJson.

(** [json.loads] *)
Variable json_loads : string -> result pyval.

(** [coerce]: [number] is [self.number] and [cm] is
    [config.contractmethod].  The function is cut in three so that each part
    can be named: the choice of the input, the rule of its type, and the
    whole. *)
Definition coerce_input (ins : list Input) (number : Z) (key : string)
  : result Input :=
  if negb (String.eqb key "") then
    getitem (filter (fun input => input_name input = key) ins) 0
  else getitem ins (number - 1).

Definition coerce_key (key : string) (inp : Input) : string :=
  if negb (String.eqb key "") then key else input_name inp.

Definition coerce_value (inp : Input) (val : string) : result pyval :=
  if endswith (input_type inp) "[]" then json_loads val
  else if startswith (input_type inp) "uint" then
    z <- int val; Ok (PInt z)
  else if String.eqb (input_type inp) "bool" then
    Ok (PBool (existsb (String.eqb val) ["true"; "True"; "1"; "t"; "yes"]))
  else if startswith (input_type inp) "byte" then
    if startswith val "0x" then
      bs <- fromhex (String.substring 2 (String.length val - 2) val);
      Ok (PBytes bs)
    else Ok (PBytes (list_byte_of_string val))
  else Ok (PStr val).

Definition coerce (cm : ContractMethod.t) (number : Z) (key val : string)
  : result (string * pyval) :=
  ins <- ContractMethod.inputs cm;
  inp <- coerce_input ins number key;
  let key := coerce_key key inp in
  val <- coerce_value inp val;
  Ok (key, val).

(** [key, val = value.split("=")] *)
Definition unpack2 (parts : list string) : result (string * string) :=
  match parts with
  | [key; val] => Ok (key, val)
  | [] | [_] =>
      Raise (ValueError "not enough values to unpack (expected 2, got 1)")
  | _ => Raise (ValueError "too many values to unpack (expected 2)")
  end.

(** The end of [convert]: [{key: val}] when there is a key, [val] alone
    otherwise. *)
Definition convert_result (kv : string * pyval) : pyval :=
  if negb (String.eqb kv.1 "") then PDict [(KStr kv.1, kv.2)] else kv.2.

(** [convert] takes [self.number] and returns the new one with the result;
    the counter is incremented before anything can raise. *)
Definition convert (cm : ContractMethod.t) (number : Z) (value : string)
  : Z * result pyval :=
  let number := number + 1 in
  (number,
   kv <- (if contains "="%char value then
            kv <- unpack2 (split "="%char value);
            coerce cm number kv.1 kv.2
          else coerce cm number "" value);
   Ok (convert_result kv)).

(** The command line hands the tokens of [args] to [convert] one after the
    other; the first failure ends the command. *)
Fixpoint convert_all (cm : ContractMethod.t) (number : Z)
    (values : list string) : Z * result (list pyval) :=
  match values with
  | [] => (number, Ok [])
  | value :: values' =>
      match convert cm number value with
      | (number', Raise e) => (number', Raise e)
      | (number', Ok v) =>
          match convert_all cm number' values' with
          | (number'', Raise e) => (number'', Raise e)
          | (number'', Ok vs) => (number'', Ok (v :: vs))
          end
      end
  end.

End WithJson.

End ContractCallerArgs.

(** ** [make_serializable] and [serializable_dict]

    On values.  The two functions call each other; [serializable_dict_of]
    takes the function it applies to the values as an argument so that the
    recursion is structural. *)

Definition make_serializable_key (k : key) : key :=
  match k with
  | KHexBytes bs => KStr (hexbytes_hex bs)
  | _ => k
  end.

Definition serializable_dict_of (make_serializable : pyval -> pyval)
    (items : list (key * pyval)) : pyval :=
  PDict (dict_of_items
           (map (fun kv => (make_serializable_key kv.1, make_serializable kv.2))
                items)).

Fixpoint make_serializable (data : pyval) : pyval :=
  match data with
  | PAttributeDict items | PDict items =>
      serializable_dict_of make_serializable items
  | PHexBytes bs => PStr (hexbytes_hex bs)
  | PList l => PList (map make_serializable l)
  | _ => data
  end.

Definition serializable_dict (items : list (key * pyval)) : pyval :=
  serializable_dict_of make_serializable items.

(** ** The command [_call] *)

(** The two branches of [if transact:], named. *)
Definition transact_and_print (w : World) (cm : ContractMethod.t) : io unit :=
  (hash <~ ContractMethod.transact w cm;
   io_emit (PrintJson (make_serializable hash)) (Ok tt))%io.

Definition call_and_print (w : World) (cm : ContractMethod.t) : io unit :=
  (output <~ ContractMethod.call w cm;
   io_emit (Print output) (Ok tt))%io.

Definition _call (w : World) (transact : option bool) (cm : ContractMethod.t)
  : io unit :=
  (ok <~ ContractMethod.check cm;
   if negb ok then io_raise (SystemExit 1)
   else
     transact <~
       match transact with
       | None =>
           a <~ io_lift (ContractMethod.abi cm);
           io_ret (negb (String.eqb (stateMutability a) "view"))
       | Some false => io_ret false
       | Some true =>
           a <~ io_lift (ContractMethod.abi cm);
           if negb (String.eqb (stateMutability a) "view") then io_ret true
           else io_emit (Confirm "Transacting a view. Are you sure?")
                        (confirm_answer w)
       end;
     if transact : bool then transact_and_print w cm
     else call_and_print w cm)%io.

(** ** The command [move_to_time] *)

(** [next(g)] on a generator in state [s]. *)
Definition next {A S : Type} (g : S -> step A S) (s : S) : result A :=
  match g s with
  | Yield a _ => Ok a
  | Stop => Raise StopIteration
  | Throw e => Raise e
  end.


Section MoveToTime.

(** [str(datetime.fromtimestamp(t))], in the time zone of the process.  The
    library raises for a time that it cannot hold as a date, as one past the
    year 9999 is. *)
Variable fromtimestamp_str : Z -> result string.


End MoveToTime.

(** ** Chains

    What the properties of the walker assume of the node: [bs] is the chain
    the node serves, head first.  The node answers [latest] with the first
    block, every block but the last has a parent hash other than the
    all-zero one and the node answers it with the next block, and the last
    block, the genesis block, has the all-zero parent hash. *)

Fixpoint linked (w3 : Node) (bs : list Block) : bool :=
  match bs with
  | [] => false
  | b :: rest =>
      match rest with
      | [] => bool_decide (parentHash b = genesis_parent)
      | p :: _ =>
          negb (bool_decide (parentHash b = genesis_parent))
          && match get_block w3 (parentHash b) with
             | Ok p' => bool_decide (p' = p)
             | Raise _ => false
             end
          && linked w3 rest
      end
  end.

Definition is_chain (w3 : Node) (bs : list Block) : bool :=
  match get_block_latest w3, bs with
  | Ok b, b0 :: _ => bool_decide (b = b0) && linked w3 bs
  | _, _ => false
  end.

(** The receipts of the blocks of [bs], block by block, when the node
    answers every request for them. *)
Definition receipts_of (w3 : Node) (bs : list Block)
  : result (list (list Receipt)) :=
  comprehension
    (fun b => comprehension (wait_for_transaction_receipt w3) (transactions b))
    bs.

(** The number of receipts of the first [k] blocks: the count at the [k]-th
    block boundary. *)
Definition count_at (rs : list (list Receipt)) (k : nat) : Z :=
  Z.of_nat (length (concat (take k rs))).

(** [walk_transactions(limit)] yields the receipts of the first [k] blocks,
    where the count at boundary [k] is the first one to reach [limit], or
    [k] is the whole chain when no boundary reaches it; the count yielded
    then exceeds [limit] by less than the size of the last block yielded. *)
Definition stops_at_boundary (self : Eth.t) (rs : list (list Receipt))
    (fuel : nat) (limit : Z) : Prop :=
  ∃ k : nat,
    (1 ≤ k ≤ length rs)%nat
    ∧ Eth.walk_transactions self fuel (Some limit)
      = (concat (take k rs), Exhausted)
    ∧ (∀ j : nat, (1 ≤ j < k)%nat → count_at rs j < limit)
    ∧ (limit ≤ count_at rs k ∨ k = length rs)
    ∧ (limit ≤ count_at rs k →
       ∃ txs, rs !! (k - 1)%nat = Some txs
              ∧ count_at rs k < limit + Z.of_nat (length txs)).

(** The generator [walk_blocks] in state [s] yields exactly [bs] and
    stops. *)
Fixpoint feeds (self : Eth.t) (s : Eth.walk_blocks_state) (bs : list Block)
  : Prop :=
  match bs with
  | [] => Eth.walk_blocks self s = Stop
  | b :: bs' =>
      Eth.walk_blocks self s = Yield b (Eth.At b) /\ feeds self (Eth.At b) bs'
  end.

(** Every contract address a receipt carries is a non-empty text. *)
Definition addresses_nonempty (txs : list Receipt) : bool :=
  forallb (fun tx => negb (bool_decide (contractAddress tx = Some ""))) txs.

(** ** A small chain

    Three blocks: the head with one transfer, its parent with a contract
    creation and a transfer, and the genesis block without transactions. *)

Definition example_genesis : Block :=
  mkBlock [x00] genesis_parent 1000 [].

Definition example_block1 : Block :=
  mkBlock [x01] [x00] 1012 [[xa1]; [xa2]].

Definition example_block2 : Block :=
  mkBlock [x02] [x01] 1024 [[xa3]].

Definition example_receipt1 : Receipt :=
  mkReceipt [xa1] (Some "0xC0") "0xAA" None.

Definition example_receipt2 : Receipt :=
  mkReceipt [xa2] None "0xBB" (Some "0xAA").

Definition example_receipt3 : Receipt :=
  mkReceipt [xa3] None "0xAA" (Some "0xBB").

Definition example_node : Node :=
  mkNode
    (Ok example_block2)
    (fun h =>
       if bool_decide (h = [x01]) then Ok example_block1
       else if bool_decide (h = [x00]) then Ok example_genesis
       else Raise (RpcError "block not found"))
    (fun h =>
       if bool_decide (h = [xa1]) then Ok example_receipt1
       else if bool_decide (h = [xa2]) then Ok example_receipt2
       else if bool_decide (h = [xa3]) then Ok example_receipt3
       else Raise (RpcError "transaction not found")).

Definition example_eth : Eth.t := Eth.mk example_node "0xAA".

Definition example_chain : list Block :=
  [example_block2; example_block1; example_genesis].

Definition example_receipts : list (list Receipt) :=
  [[example_receipt3]; [example_receipt1; example_receipt2]; []].

(** ** An ABI for the examples *)

Definition example_abi : list Method :=
  [ mkMethod (Some "balanceOf") [mkInput "owner" "address"]
             (Some [mkOutput "uint256"]) "view";
    mkMethod (Some "store")
             [mkInput "a" "uint256"; mkInput "b" "uint256"]
             (Some []) "nonpayable";
    mkMethod (Some "configure")
             [mkInput "amount" "uint256"; mkInput "enabled" "bool";
              mkInput "salt" "bytes32"; mkInput "ids" "uint256[]";
              mkInput "label" "string"]
             None "nonpayable";
    mkMethod None [] None "payable" ].

(** The answers of [json.loads] on the texts of the examples. *)
Definition example_json_loads (s : string) : result pyval :=
  if String.eqb s "[1, 2]" then Ok (PList [PInt 1; PInt 2])
  else if String.eqb s "1" then Ok (PInt 1)
  else Raise JSONDecodeError.

Definition example_world : World :=
  mkWorld (Ok true) (Ok (PInt 7)) (Ok [xbe; xef])
          (Ok (PAttributeDict [(KStr "transactionHash", PHexBytes [xbe; xef]);
                               (KStr "status", PInt 1)])).




(** The number of occurrences of a character in a text, and the text in
    lower case: the words of the statements about tokens. *)
Fixpoint count_char (c : ascii) (s : string) : nat :=
  match s with
  | EmptyString => 0%nat
  | String d s' => ((if Ascii.eqb d c then 1 else 0) + count_char c s')%nat
  end.

Definition lower_char (c : ascii) : ascii :=
  let n := N_of_ascii c in
  if (N.leb 65 n && N.leb n 90)%N then ascii_of_N (n + 32) else c.

Fixpoint lower (s : string) : string :=
  match s with
  | EmptyString => ""
  | String c s' => String (lower_char c) (lower s')
  end.

(** [n] occurs in [msg]. *)
Definition occurs_in (n msg : string) : Prop :=
  exists pre post, msg = pre +:+ n +:+ post.

(** A request to the contract: what [call] and [transact] send. *)
Definition is_rpc (ev : event) : bool :=
  match ev with
  | CallerCall _ _ _ | FunctionsTransact _ _ _
  | WaitForTransactionReceipt _ => true
  | _ => false
  end.

(** ** [make_serializable] on the store

    Dictionaries, [AttributeDict]s and lists are objects of a store, and a
    value refers to them by their location; this is where a function could
    change its argument.  [make_serializable] reads the objects it is given
    and builds its results in new objects.  The recursion follows the
    references, so it is bounded by [fuel]. *)

Definition loc : Type := positive.

Inductive hval : Type :=
| HNone
| HBool (b : bool)
| HInt (z : Z)
| HStr (s : string)
| HBytes (bs : list byte)
| HHexBytes (bs : list byte)
| HTuple (l : list hval)
| HRef (l : loc)
| HObject (repr : string).

Inductive hobj : Type :=
| OList (elems : list hval)
| ODict (items : list (key * hval))
| OAttributeDict (items : list (key * hval)).

(** The new object of a comprehension or of a display. *)
Definition alloc (h : gmap loc hobj) (o : hobj) : gmap loc hobj * hval :=
  let l := fresh (dom h) in (<[l := o]> h, HRef l).

(** [[f(elem) for elem in elems]], where [f] may build objects. *)
Fixpoint comprehension_h
    (f : gmap loc hobj -> hval -> option (gmap loc hobj * hval))
    (h : gmap loc hobj) (elems : list hval)
  : option (gmap loc hobj * list hval) :=
  match elems with
  | [] => Some (h, [])
  | x :: elems' =>
      match f h x with
      | None => None
      | Some (h1, y) =>
          match comprehension_h f h1 elems' with
          | None => None
          | Some (h2, ys) => Some (h2, y :: ys)
          end
      end
  end.

(** The pairs [(make_serializable(key), make_serializable(value))] of a
    dictionary comprehension, key first. *)
Fixpoint items_h
    (f : gmap loc hobj -> hval -> option (gmap loc hobj * hval))
    (h : gmap loc hobj) (items : list (key * hval))
  : option (gmap loc hobj * list (key * hval)) :=
  match items with
  | [] => Some (h, [])
  | (k, x) :: items' =>
      match f h x with
      | None => None
      | Some (h1, y) =>
          match items_h f h1 items' with
          | None => None
          | Some (h2, ys) => Some (h2, (make_serializable_key k, y) :: ys)
          end
      end
  end.

Definition serializable_dict_h
    (f : gmap loc hobj -> hval -> option (gmap loc hobj * hval))
    (h : gmap loc hobj) (items : list (key * hval))
  : option (gmap loc hobj * hval) :=
  match items_h f h items with
  | None => None
  | Some (h', items') => Some (alloc h' (ODict (dict_of_items items')))
  end.

Fixpoint make_serializable_h (fuel : nat) (h : gmap loc hobj) (data : hval)
  : option (gmap loc hobj * hval) :=
  match fuel with
  | O => None
  | S fuel' =>
      match data with
      | HRef l =>
          match h !! l with
          | Some (OAttributeDict items) | Some (ODict items) =>
              serializable_dict_h (make_serializable_h fuel') h items
          | Some (OList elems) =>
              match comprehension_h (make_serializable_h fuel') h elems with
              | None => None
              | Some (h', elems') => Some (alloc h' (OList elems'))
              end
          | None => None
          end
      | HHexBytes bs => Some (h, HStr (hexbytes_hex bs))
      | _ => Some (h, data)
      end
  end.

(** The value [v] of the store [h] is the tree [p]. *)
Fixpoint all2 {A B : Type} (R : A -> B -> Prop) (l : list A) (l' : list B)
  : Prop :=
  match l, l' with
  | [], [] => True
  | x :: l, y :: l' => R x y /\ all2 R l l'
  | _, _ => False
  end.

Fixpoint is_tree (h : gmap loc hobj) (p : pyval) (v : hval) : Prop :=
  match p with
  | PNone => v = HNone
  | PBool b => v = HBool b
  | PInt z => v = HInt z
  | PStr s => v = HStr s
  | PBytes bs => v = HBytes bs
  | PHexBytes bs => v = HHexBytes bs
  | PObject repr => v = HObject repr
  | PTuple pl => exists l, v = HTuple l /\ all2 (is_tree h) pl l
  | PList pl =>
      exists l elems, v = HRef l /\ h !! l = Some (OList elems)
                      /\ all2 (is_tree h) pl elems
  | PDict pitems =>
      exists l items, v = HRef l /\ h !! l = Some (ODict items)
        /\ all2 (fun pkv kv => pkv.1 = kv.1 /\ is_tree h pkv.2 kv.2)
                pitems items
  | PAttributeDict pitems =>
      exists l items, v = HRef l /\ h !! l = Some (OAttributeDict items)
        /\ all2 (fun pkv kv => pkv.1 = kv.1 /\ is_tree h pkv.2 kv.2)
                pitems items
  end.

(** A receipt in the store: an [AttributeDict] with a hash and a list of
    logs. *)
Definition example_store : gmap loc hobj :=
  <[1%positive :=
      OAttributeDict [(KStr "transactionHash", HHexBytes [xbe; xef]);
                      (KStr "logs", HRef 2%positive);
                      (KStr "status", HInt 1)]]>
    (<[2%positive := OList [HHexBytes [x0a]; HNone]]> ∅).

Definition example_tree : pyval :=
  PAttributeDict [(KStr "transactionHash", PHexBytes [xbe; xef]);
                  (KStr "logs", PList [PHexBytes [x0a]; PNone]);
                  (KStr "status", PInt 1)].

(** No key of [ks] equals [k]; and the keys of a dictionary, which are
    pairwise different: each one was new when it was added. *)
Definition key_fresh (k : key) (ks : list key) : bool :=
  forallb (fun k' => negb (key_eqb k' k)) ks.

Inductive keys_wf : list key -> Prop :=
| keys_wf_nil : keys_wf []
| keys_wf_snoc ks k :
    keys_wf ks -> key_fresh k ks = true -> keys_wf (ks ++ [k]).

(** Induction on values, with the hypothesis for the elements of a list, of
    a tuple and of a dictionary. *)
Fixpoint pyval_nested_ind (P : pyval -> Prop)
    (HNone_ : P PNone)
    (HBool_ : forall b, P (PBool b))
    (HInt_ : forall z, P (PInt z))
    (HStr_ : forall s, P (PStr s))
    (HBytes_ : forall bs, P (PBytes bs))
    (HHexBytes_ : forall bs, P (PHexBytes bs))
    (HList_ : forall l, Forall P l -> P (PList l))
    (HTuple_ : forall l, Forall P l -> P (PTuple l))
    (HDict_ : forall items, Forall (fun kv => P kv.2) items -> P (PDict items))
    (HAttributeDict_ :
       forall items, Forall (fun kv => P kv.2) items ->
                     P (PAttributeDict items))
    (HObject_ : forall repr, P (PObject repr))
    (v : pyval) {struct v} : P v :=
  let rec := pyval_nested_ind P HNone_ HBool_ HInt_ HStr_ HBytes_ HHexBytes_
               HList_ HTuple_ HDict_ HAttributeDict_ HObject_ in
  let all :=
    fix all (l : list pyval) : Forall P l :=
      match l with
      | [] => @List.Forall_nil _ P
      | x :: l' => @List.Forall_cons _ P x l' (rec x) (all l')
      end in
  let all_items :=
    fix all_items (l : list (key * pyval)) : Forall (fun kv => P kv.2) l :=
      match l with
      | [] => @List.Forall_nil _ (fun kv => P kv.2)
      | kv :: l' =>
          @List.Forall_cons _ (fun kv => P kv.2) kv l' (rec kv.2) (all_items l')
      end in
  match v with
  | PNone => HNone_
  | PBool b => HBool_ b
  | PInt z => HInt_ z
  | PStr s => HStr_ s
  | PBytes bs => HBytes_ bs
  | PHexBytes bs => HHexBytes_ bs
  | PList l => HList_ l (all l)
  | PTuple l => HTuple_ l (all l)
  | PDict items => HDict_ items (all_items items)
  | PAttributeDict items => HAttributeDict_ items (all_items items)
  | PObject repr => HObject_ repr
  end.

(** For a tree [p], enough fuel makes [make_serializable] on the store
    return, with a result that is the tree [make_serializable p], in a store
    that contains the old one. *)
Definition computes (p : pyval) : Prop :=
  exists n : nat, forall fuel : nat, (n <= fuel)%nat ->
    forall h v, is_tree h p v ->
      exists h' r,
        make_serializable_h fuel h v = Some (h', r)
        /\ is_tree h' (make_serializable p) r
        /\ h ⊆ h'.

(** ** More of the walker's surroundings

    [served w3 bs]: the node serves the blocks [bs] one after the other by
    their parent hashes, none of which is the all-zero one up to the last
    block; nothing is said of the parent of the last block. *)
Fixpoint served (w3 : Node) (bs : list Block) : bool :=
  match bs with
  | [] => false
  | b :: rest =>
      match rest with
      | [] => true
      | p :: _ =>
          negb (bool_decide (parentHash b = genesis_parent))
          && match get_block w3 (parentHash b) with
             | Ok p' => bool_decide (p' = p)
             | Raise _ => false
             end
          && served w3 rest
      end
  end.

Definition is_chain_prefix (w3 : Node) (bs : list Block) : bool :=
  match get_block_latest w3, bs with
  | Ok b, b0 :: _ => bool_decide (b = b0) && served w3 bs
  | _, _ => false
  end.

(** The generator [walk_blocks] in state [s] yields [bs] first. *)
Fixpoint feeds_prefix (self : Eth.t) (s : Eth.walk_blocks_state)
    (bs : list Block) : Prop :=
  match bs with
  | [] => True
  | b :: bs' =>
      Eth.walk_blocks self s = Yield b (Eth.At b)
      /\ feeds_prefix self (Eth.At b) bs'
  end.

(** The state of the generator after it has yielded [bs] from [s]. *)
Definition state_after (s : Eth.walk_blocks_state) (bs : list Block)
  : Eth.walk_blocks_state :=
  match last bs with
  | Some b => Eth.At b
  | None => s
  end.

(** A node whose head has one transaction and whose other requests for
    blocks fail, and a node that serves the same block under every hash. *)
Definition example_lonely_node : Node :=
  mkNode (Ok example_block2)
         (fun _ => Raise (RpcError "block not found"))
         (wait_for_transaction_receipt example_node).

Definition example_endless_node : Node :=
  mkNode (Ok example_block2)
         (fun _ => Ok example_block2)
         (wait_for_transaction_receipt example_node).

(** A node that has lost the receipt of the second block's second
    transaction. *)
Definition example_lossy_node : Node :=
  mkNode (get_block_latest example_node)
         (get_block example_node)
         (fun h =>
            if bool_decide (h = [xa2]) then Raise (RpcError "timeout")
            else wait_for_transaction_receipt example_node h).

(** [d.get(k)]: the value of the first item whose key equals [k]. *)
Fixpoint dict_get {V : Type} (d : list (key * V)) (k : key) : option V :=
  match d with
  | [] => None
  | (k', v) :: d' => if key_eqb k' k then Some v else dict_get d' k
  end.

(** [ContractCallerArgs.choices]: the completions proposed for the next
    token, in the order of the iteration of the set. *)
Definition choices (cm : ContractMethod.t) : result (list string) :=
  missing_names <- ContractMethod.missing_names cm;
  Ok (map (fun name => name +:+ "=") (elements missing_names)).

(** A value without [HexBytes] and without [AttributeDict], as far as
    dictionaries and lists lead: [make_serializable] does not look into
    tuples and other objects. *)
Definition clean_key (k : key) : bool :=
  match k with
  | KHexBytes _ => false
  | _ => true
  end.

Fixpoint clean (v : pyval) : bool :=
  match v with
  | PHexBytes _ | PAttributeDict _ => false
  | PList l => forallb clean l
  | PDict items => forallb (fun kv => clean_key kv.1 && clean kv.2) items
  | _ => true
  end.

(** * Properties *)

(** ** The chain walker *)

Section Walker.

Variable self : Eth.t.

Lemma linked_cons_inv b p rest :
  linked (Eth.w3 self) (b :: p :: rest) = true ->
  parentHash b <> genesis_parent
  /\ get_block (Eth.w3 self) (parentHash b) = Ok p
  /\ linked (Eth.w3 self) (p :: rest) = true.
Proof.
  cbn [linked]. intros H.
  apply andb_prop in H as [H Hl]. apply andb_prop in H as [Hn Hg].
  split; [|split]; [| |exact Hl].
  - apply negb_true_iff, bool_decide_eq_false in Hn; exact Hn.
  - destruct (get_block (Eth.w3 self) (parentHash b)); [|discriminate].
    apply bool_decide_eq_true in Hg; congruence.
Qed.

Lemma linked_last_genesis bs g :
  linked (Eth.w3 self) (bs ++ [g]) = true -> parentHash g = genesis_parent.
Proof.
  induction bs as [|b bs IH].
  - simpl. apply bool_decide_eq_true.
  - intros H. destruct bs as [|p bs].
    + apply linked_cons_inv in H as (_ & _ & H). apply IH; exact H.
    + apply linked_cons_inv in H as (_ & _ & H). apply IH; exact H.
Qed.

Lemma drain_linked bs : forall b fuel,
  linked (Eth.w3 self) (b :: bs) = true ->
  (length bs < fuel)%nat ->
  drain (Eth.walk_blocks self) fuel (Eth.At b) = (bs, Exhausted).
Proof.
  induction bs as [|p bs IH]; intros b fuel Hl Hf.
  - destruct fuel as [|fuel]; [lia|]. simpl in *.
    rewrite Hl. reflexivity.
  - destruct fuel as [|fuel]; [simpl in Hf; lia|].
    apply linked_cons_inv in Hl as (Hn & Hg & Hl).
    cbn [drain Eth.walk_blocks].
    rewrite bool_decide_eq_false_2 by exact Hn.
    rewrite Hg. rewrite (IH p fuel Hl) by (simpl in Hf; lia).
    reflexivity.
Qed.

Lemma is_chain_inv bs :
  is_chain (Eth.w3 self) bs = true ->
  exists b rest, bs = b :: rest
    /\ get_block_latest (Eth.w3 self) = Ok b
    /\ linked (Eth.w3 self) bs = true.
Proof.
  unfold is_chain. destruct (get_block_latest (Eth.w3 self)) as [b|]; [|discriminate].
  destruct bs as [|b0 rest]; [discriminate|].
  intros H. apply andb_prop in H as [Hb Hl].
  apply bool_decide_eq_true in Hb. subst b0. eauto.
Qed.

(** C3. On a chain of [N] blocks followed by the genesis block,
    [walk_blocks()] yields exactly these [N + 1] blocks, head first and the
    genesis block last, and then stops: the next request after the genesis
    block ends the iteration. *)
Theorem walk_blocks_yields_chain_to_genesis :
  forall (N : nat) (blocks : list Block) (genesis : Block) (fuel : nat),
    length blocks = N ->
    is_chain (Eth.w3 self) (blocks ++ [genesis]) = true ->
    (N + 1 < fuel)%nat ->
    drain (Eth.walk_blocks self) fuel Eth.Fresh
      = (blocks ++ [genesis], Exhausted)
    /\ length (fst (drain (Eth.walk_blocks self) fuel Eth.Fresh)) = (N + 1)%nat
    /\ Ok <$> head (fst (drain (Eth.walk_blocks self) fuel Eth.Fresh))
       = Some (get_block_latest (Eth.w3 self))
    /\ last (fst (drain (Eth.walk_blocks self) fuel Eth.Fresh)) = Some genesis
    /\ parentHash genesis = genesis_parent
    /\ Eth.walk_blocks self (Eth.At genesis) = Stop.
Proof.
  intros N blocks genesis fuel HN Hc Hf.
  destruct (is_chain_inv _ Hc) as (b & rest & Hbs & Hlatest & Hl).
  assert (Hg : parentHash genesis = genesis_parent)
    by (eapply linked_last_genesis; exact Hl).
  assert (Hd : drain (Eth.walk_blocks self) fuel Eth.Fresh
               = (blocks ++ [genesis], Exhausted)).
  { destruct fuel as [|fuel]; [lia|].
    cbn [drain Eth.walk_blocks]. rewrite Hlatest.
    rewrite Hbs in Hl |- *.
    rewrite (drain_linked rest b fuel Hl); [reflexivity|].
    assert (length (blocks ++ [genesis]) = S (length rest))
      by (rewrite Hbs; reflexivity).
    rewrite length_app in H; simpl in H. lia. }
  rewrite Hd. cbn [fst].
  split; [reflexivity|]. split; [rewrite length_app; simpl; lia|].
  split; [rewrite Hbs, Hlatest; reflexivity|].
  split; [apply last_snoc|].
  split; [exact Hg|].
  cbn [Eth.walk_blocks]. rewrite bool_decide_eq_true_2 by exact Hg. reflexivity.
Qed.

Lemma linked_feeds bs : forall b,
  linked (Eth.w3 self) (b :: bs) = true -> feeds self (Eth.At b) bs.
Proof.
  induction bs as [|p bs IH]; intros b Hl.
  - simpl in *. rewrite Hl. reflexivity.
  - apply linked_cons_inv in Hl as (Hn & Hg & Hl).
    split; [|apply IH; exact Hl].
    cbn [Eth.walk_blocks]. rewrite bool_decide_eq_false_2 by exact Hn.
    rewrite Hg. reflexivity.
Qed.

Lemma is_chain_feeds bs :
  is_chain (Eth.w3 self) bs = true -> feeds self Eth.Fresh bs.
Proof.
  intros Hc. destruct (is_chain_inv _ Hc) as (b & rest & -> & Hlatest & Hl).
  split; [|apply linked_feeds; exact Hl].
  cbn [Eth.walk_blocks]. rewrite Hlatest. reflexivity.
Qed.

Lemma receipts_of_cons b bs rs :
  receipts_of (Eth.w3 self) (b :: bs) = Ok rs ->
  exists txs rs', rs = txs :: rs'
    /\ comprehension (wait_for_transaction_receipt (Eth.w3 self))
                     (transactions b) = Ok txs
    /\ receipts_of (Eth.w3 self) bs = Ok rs'.
Proof.
  unfold receipts_of. cbn [comprehension].
  destruct (comprehension (wait_for_transaction_receipt _) (transactions b))
    as [txs|]; [|discriminate].
  cbn [bind].
  destruct (comprehension _ bs) as [rs'|]; [|discriminate].
  intros [= <-]. eauto.
Qed.

Lemma count_at_cons txs rs k :
  count_at (txs :: rs) (S k) = Z.of_nat (length txs) + count_at rs k.
Proof.
  unfold count_at. cbn [take concat]. rewrite length_app. lia.
Qed.

Lemma count_at_0 rs : count_at rs 0 = 0.
Proof. reflexivity. Qed.

(** Without a limit the loop runs to the end of the chain. *)
Lemma walk_transactions_from_unlimited bs : forall rs s accum fuel,
  feeds self s bs ->
  receipts_of (Eth.w3 self) bs = Ok rs ->
  (length bs < fuel)%nat ->
  Eth.walk_transactions_from self None fuel accum s = (concat rs, Exhausted).
Proof.
  induction bs as [|b bs IH]; intros rs s accum fuel Hfeed Hrs Hfuel.
  - destruct fuel as [|fuel]; [simpl in Hfuel; lia|].
    simpl in Hfeed, Hrs. injection Hrs as <-.
    cbn [Eth.walk_transactions_from]. rewrite Hfeed. reflexivity.
  - destruct fuel as [|fuel]; [simpl in Hfuel; lia|].
    destruct Hfeed as [Hstep Hfeed].
    destruct (receipts_of_cons _ _ _ Hrs) as (txs & rs' & -> & Htxs & Hrs').
    cbn [Eth.walk_transactions_from]. rewrite Hstep, Htxs.
    cbn [Eth.limit_reached].
    rewrite (IH rs' _ _ fuel Hfeed Hrs') by (simpl in Hfuel; lia).
    reflexivity.
Qed.

(** With a limit of at least one: the loop invariant is [accum < limit]. *)
Lemma walk_transactions_from_limited limit bs : forall rs s accum fuel,
  feeds self s bs ->
  receipts_of (Eth.w3 self) bs = Ok rs ->
  (length bs < fuel)%nat ->
  1 <= limit -> accum < limit ->
  exists k : nat,
    (k <= length rs)%nat
    /\ (bs <> [] -> (1 <= k)%nat)
    /\ Eth.walk_transactions_from self (Some limit) fuel accum s
       = (concat (take k rs), Exhausted)
    /\ (forall j : nat, (1 <= j < k)%nat -> accum + count_at rs j < limit)
    /\ (limit <= accum + count_at rs k \/ k = length rs)
    /\ (limit <= accum + count_at rs k ->
        exists txs, rs !! (k - 1)%nat = Some txs
          /\ accum + count_at rs k < limit + Z.of_nat (length txs)).
Proof.
  induction bs as [|b bs IH]; intros rs s accum fuel Hfeed Hrs Hfuel Hlim Hacc.
  - destruct fuel as [|fuel]; [simpl in Hfuel; lia|].
    simpl in Hfeed, Hrs. injection Hrs as <-.
    exists 0%nat. cbn [Eth.walk_transactions_from]. rewrite Hfeed.
    split; [simpl; lia|]. split; [congruence|]. split; [reflexivity|].
    split; [intros j Hj; lia|]. split; [right; reflexivity|].
    rewrite count_at_0. lia.
  - destruct fuel as [|fuel]; [simpl in Hfuel; lia|].
    destruct Hfeed as [Hstep Hfeed].
    destruct (receipts_of_cons _ _ _ Hrs) as (txs & rs' & -> & Htxs & Hrs').
    cbn [Eth.walk_transactions_from]. rewrite Hstep, Htxs.
    destruct (Eth.limit_reached (Some limit) (accum + Z.of_nat (length txs)))
      eqn:Hreach.
    + exists 1%nat. cbn [Eth.limit_reached] in Hreach.
      apply andb_prop in Hreach as [_ Hle]. apply Z.leb_le in Hle.
      assert (Hc1 : count_at (txs :: rs') 1 = Z.of_nat (length txs))
        by (rewrite count_at_cons, count_at_0; lia).
      split; [simpl; lia|]. split; [lia|].
      split; [cbn [take concat]; rewrite app_nil_r; reflexivity|].
      split; [intros j Hj; lia|].
      split; [left; rewrite Hc1; exact Hle|].
      intros _. exists txs. split; [reflexivity|]. rewrite Hc1. lia.
    + assert (Hacc' : accum + Z.of_nat (length txs) < limit).
      { cbn [Eth.limit_reached] in Hreach.
        apply andb_false_iff in Hreach as [H|H].
        - apply negb_false_iff, Z.eqb_eq in H. lia.
        - apply Z.leb_gt in H. exact H. }
      destruct (IH rs' (Eth.At b) (accum + Z.of_nat (length txs)) fuel
                  Hfeed Hrs') as
        (k & Hk & Hk1 & Hrun & Hbefore & Hstop & Hover);
        [simpl in Hfuel; lia|exact Hlim|exact Hacc'|].
      exists (S k). rewrite Hrun.
      split; [simpl; lia|]. split; [lia|].
      split; [reflexivity|].
      split; [|split].
      * intros [|j] Hj; [lia|]. rewrite count_at_cons.
        destruct j as [|j]; [rewrite count_at_0; lia|].
        specialize (Hbefore (S j)). lia.
      * rewrite count_at_cons. destruct Hstop as [H|H]; [left; lia|right; simpl; lia].
      * rewrite count_at_cons. intros Hge.
        destruct k as [|k]; [rewrite count_at_0 in Hge; lia|].
        destruct Hover as (txs' & Hl & Hlt); [lia|].
        exists txs'. split; [|lia].
        replace (S (S k) - 1)%nat with (S k) by lia.
        replace (S k - 1)%nat with k in Hl by lia. exact Hl.
Qed.

(** C1, as the code has it.  On a chain whose receipts the node serves,
    [walk_transactions()] without a limit yields every receipt, and for every
    limit of at least 1, [walk_transactions(limit)] yields the receipts of the
    first [k] blocks, where [k] is the first block boundary whose cumulative
    count reaches the limit, or the whole chain when none does; the limit is
    tested after a whole block has been yielded, so the count yielded
    exceeds the limit by less than the size of the last block yielded. *)
Theorem walk_transactions_stops_after_crossing_limit :
  forall (bs : list Block) (rs : list (list Receipt)) (fuel : nat),
    is_chain (Eth.w3 self) bs = true ->
    receipts_of (Eth.w3 self) bs = Ok rs ->
    (length bs < fuel)%nat ->
    Eth.walk_transactions self fuel None = (concat rs, Exhausted)
    /\ forall limit : Z, 1 <= limit -> stops_at_boundary self rs fuel limit.
Proof.
  intros bs rs fuel Hc Hrs Hfuel.
  pose proof (is_chain_feeds _ Hc) as Hfeed.
  split.
  - unfold Eth.walk_transactions.
    eapply walk_transactions_from_unlimited; eassumption.
  - intros limit Hlim.
    destruct (walk_transactions_from_limited limit bs rs Eth.Fresh 0 fuel
                Hfeed Hrs Hfuel Hlim) as
      (k & Hk & Hk1 & Hrun & Hbefore & Hstop & Hover); [lia|].
    exists k. unfold Eth.walk_transactions. rewrite Hrun.
    split.
    { split; [|exact Hk]. apply Hk1.
      destruct (is_chain_inv _ Hc) as (b & rest & -> & _). discriminate. }
    split; [reflexivity|].
    split; [intros j Hj; specialize (Hbefore j Hj); lia|].
    split; [destruct Hstop; [left; lia|right; assumption]|].
    intros Hge. destruct Hover as (txs & Hl & Hlt); [lia|].
    exists txs. split; [exact Hl|lia].
Qed.

End Walker.

(** The witness of C3 on the small chain. *)
Lemma walk_blocks_yields_chain_to_genesis_witness :
  drain (Eth.walk_blocks example_eth) 4 Eth.Fresh
  = ([example_block2; example_block1] ++ [example_genesis], Exhausted)
  /\ length (fst (drain (Eth.walk_blocks example_eth) 4 Eth.Fresh)) = (2 + 1)%nat
  /\ Ok <$> head (fst (drain (Eth.walk_blocks example_eth) 4 Eth.Fresh))
     = Some (get_block_latest (Eth.w3 example_eth))
  /\ last (fst (drain (Eth.walk_blocks example_eth) 4 Eth.Fresh))
     = Some example_genesis
  /\ parentHash example_genesis = genesis_parent
  /\ Eth.walk_blocks example_eth (Eth.At example_genesis) = Stop.
Proof.
  apply (walk_blocks_yields_chain_to_genesis example_eth 2
           [example_block2; example_block1] example_genesis 4).
  - reflexivity.
  - vm_compute; reflexivity.
  - lia.
Defined.

(** The witness of C1 on the small chain, without a limit and with the
    limit 2: the first block has one receipt, so the walk goes on to the
    second block and stops there with three receipts. *)
Lemma walk_transactions_stops_after_crossing_limit_witness :
  Eth.walk_transactions example_eth 4 None
  = (concat example_receipts, Exhausted)
  /\ stops_at_boundary example_eth example_receipts 4 2.
Proof.
  destruct (walk_transactions_stops_after_crossing_limit example_eth
              example_chain example_receipts 4) as [Hall Hlimit].
  - vm_compute; reflexivity.
  - vm_compute; reflexivity.
  - simpl; lia.
  - split; [exact Hall|]. apply Hlimit. lia.
Defined.

(** C1 fails for the limit 0.  On the small chain the count at the first
    block boundary is 1, which is at least 0, but [walk_transactions(0)]
    yields all three receipts: [if limit] is false for 0, so the loop never
    stops early. *)
Lemma walk_transactions_limit_zero_counterexample :
  Eth.walk_transactions example_eth 4 (Some 0)
  = ([example_receipt3; example_receipt1; example_receipt2], Exhausted)
  /\ count_at example_receipts 1 = 1
  /\ ~ stops_at_boundary example_eth example_receipts 4 0.
Proof.
  split; [vm_compute; reflexivity|]. split; [reflexivity|].
  intros (k & [Hk1 Hk] & Hrun & Hbefore & _).
  destruct k as [|[|k]].
  - lia.
  - vm_compute in Hrun. discriminate.
  - specialize (Hbefore 1%nat). unfold count_at in Hbefore.
    simpl in Hbefore. lia.
Qed.

Section History.

Variable self : Eth.t.

Lemma py_in_history (address : string) (tx : Receipt) :
  Eth.py_in (Some address)
    [contractAddress tx; Some (tx_from tx); tx_to tx] = true
  <-> contractAddress tx = Some address
      \/ tx_from tx = address
      \/ tx_to tx = Some address.
Proof.
  unfold Eth.py_in. cbn [existsb].
  rewrite !orb_true_iff, !bool_decide_eq_true.
  split.
  - intros [H|[H|[H|H]]]; [left|right; left|right; right|discriminate];
      congruence.
  - intros [H|[H|H]]; [left|right; left|right; right; left]; congruence.
Qed.

Lemma filter_truthy_contracts (txs : list Receipt) :
  addresses_nonempty txs = true ->
  map contractAddress
      (filter (fun tx => Eth.truthy (contractAddress tx) = true) txs)
  = Some <$> omap contractAddress txs.
Proof.
  induction txs as [|tx txs IH]; [reflexivity|].
  cbn [addresses_nonempty forallb]. intros H.
  apply andb_prop in H as [Hne Hrest].
  apply negb_true_iff, bool_decide_eq_false in Hne.
  rewrite filter_cons.
  change (omap contractAddress (tx :: txs))
    with (match contractAddress tx with
          | Some a => a :: omap contractAddress txs
          | None => omap contractAddress txs
          end).
  destruct (contractAddress tx) as [a|] eqn:Ha.
  - assert (Ht : Eth.truthy (Some a) = true).
    { cbn [Eth.truthy]. apply negb_true_iff, String.eqb_neq. congruence. }
    rewrite decide_True by exact Ht.
    rewrite !fmap_cons, Ha. f_equal. apply IH, Hrest.
  - rewrite decide_False by (cbn [Eth.truthy]; discriminate).
    apply IH, Hrest.
Qed.

(** C7. [history(A)] keeps, in order, exactly the receipts that
    [walk_transactions] yields whose contract address, sender or recipient
    is [A], and [take_contracts(history(A))] yields, in order and with
    repetitions, the contract addresses of those receipts of the history
    that have one.  An address is a non-empty text. *)
Theorem take_contracts_of_history :
  forall (fuel : nat) (A : string) (limit : option Z),
    addresses_nonempty (fst (Eth.walk_transactions self fuel limit)) = true ->
    Eth.history self fuel A limit
    = (filter (fun tx => contractAddress tx = Some A
                         \/ tx_from tx = A
                         \/ tx_to tx = Some A)
              (fst (Eth.walk_transactions self fuel limit)),
       snd (Eth.walk_transactions self fuel limit))
    /\ Eth.take_contracts self fuel
         (Some (Eth.Generator (Eth.history self fuel A limit)))
       = (Some <$> omap contractAddress (fst (Eth.history self fuel A limit)),
          snd (Eth.history self fuel A limit)).
Proof.
  intros fuel A limit Hne.
  unfold Eth.take_contracts, Eth.filter_contract.
  cbn [Eth.or_myhistory Eth.iterable_truthy Eth.iterate].
  unfold Eth.history.
  destruct (Eth.walk_transactions self fuel limit) as [txs e].
  cbn [fst snd] in *.
  split.
  - f_equal. apply list_filter_iff. intros tx. apply py_in_history.
  - f_equal. apply filter_truthy_contracts.
    unfold addresses_nonempty in *. rewrite forallb_forall in Hne |- *.
    intros tx Hin. apply Hne.
    apply list_elem_of_In in Hin. apply list_elem_of_In.
    apply list_elem_of_filter in Hin as [_ Hin]. exact Hin.
Qed.

End History.

(** The witness of C7 on the small chain, for the address that sent two
    transactions and received one. *)
Lemma take_contracts_of_history_witness :
  Eth.history example_eth 4 "0xAA" None
  = (filter (fun tx => contractAddress tx = Some "0xAA"
                       \/ tx_from tx = "0xAA"
                       \/ tx_to tx = Some "0xAA")
            (fst (Eth.walk_transactions example_eth 4 None)),
     snd (Eth.walk_transactions example_eth 4 None))
  /\ Eth.take_contracts example_eth 4
       (Some (Eth.Generator (Eth.history example_eth 4 "0xAA" None)))
     = (Some <$> omap contractAddress
                   (fst (Eth.history example_eth 4 "0xAA" None)),
        snd (Eth.history example_eth 4 "0xAA" None)).
Proof.
  apply (take_contracts_of_history example_eth 4 "0xAA" None).
  vm_compute; reflexivity.
Defined.

(** ** The argument coercer *)

Section Coercer.

Variable json_loads : string -> result pyval.

Lemma coerce_unfold cm number key val ins inp :
  ContractMethod.inputs cm = Ok ins ->
  ContractCallerArgs.coerce_input ins number key = Ok inp ->
  ContractCallerArgs.coerce json_loads cm number key val
  = (v <- ContractCallerArgs.coerce_value json_loads inp val;
     Ok (ContractCallerArgs.coerce_key key inp, v)).
Proof.
  intros Hins Hinp. unfold ContractCallerArgs.coerce.
  rewrite Hins. cbn [bind]. rewrite Hinp. reflexivity.
Qed.

(** C2, as the code has it.  For an input of type [bool] the coerced value
    is the boolean that tells whether the raw text is one of the five texts
    ["true"], ["True"], ["1"], ["t"], ["yes"], compared as they are written;
    every other text, among them the other spellings in capitals, gives
    false. *)
Theorem coerce_bool_is_membership_of_five_texts :
  forall cm number key val ins inp,
    ContractMethod.inputs cm = Ok ins ->
    ContractCallerArgs.coerce_input ins number key = Ok inp ->
    input_type inp = "bool" ->
    exists b : bool,
      ContractCallerArgs.coerce json_loads cm number key val
      = Ok (ContractCallerArgs.coerce_key key inp, PBool b)
      /\ (b = true <->
          val = "true" \/ val = "True" \/ val = "1" \/ val = "t"
          \/ val = "yes").
Proof.
  intros cm number key val ins inp Hins Hinp Hty.
  exists (existsb (String.eqb val) ["true"; "True"; "1"; "t"; "yes"]).
  split.
  - rewrite (coerce_unfold _ _ _ _ _ _ Hins Hinp).
    unfold ContractCallerArgs.coerce_value. rewrite Hty. reflexivity.
  - cbn [existsb]. rewrite !orb_true_iff, !String.eqb_eq.
    intuition discriminate.
Qed.

(** C6. The rule is chosen by the declared type, the first that applies in
    this order: a type that ends in "[]" gives the raw text to the JSON
    reader; else a type that starts with "uint" reads it as an integer; else
    (the type "bool" apart) a type that starts with "byte" decodes the
    hexadecimal digits after "0x" when the raw text starts with "0x" and
    otherwise takes the bytes of the encoded text; any other type keeps the
    raw text.  [uint256] with "42" gives 42 and [bytes32] with "0xabcd" gives
    the two bytes AB CD. *)
Theorem coerce_dispatches_on_declared_type :
  forall cm number key val ins inp,
    ContractMethod.inputs cm = Ok ins ->
    ContractCallerArgs.coerce_input ins number key = Ok inp ->
    let ty := input_type inp in
    let key' := ContractCallerArgs.coerce_key key inp in
    let coerced := ContractCallerArgs.coerce json_loads cm number key val in
    (endswith ty "[]" = true ->
     coerced = (v <- json_loads val; Ok (key', v)))
    /\ (endswith ty "[]" = false -> startswith ty "uint" = true ->
        coerced = (z <- int val; Ok (key', PInt z)))
    /\ (endswith ty "[]" = false -> startswith ty "uint" = false ->
        ty <> "bool" -> startswith ty "byte" = true ->
        (startswith val "0x" = true ->
         coerced
         = (bs <- fromhex (String.substring 2 (String.length val - 2) val);
            Ok (key', PBytes bs)))
        /\ (startswith val "0x" = false ->
            coerced = Ok (key', PBytes (list_byte_of_string val))))
    /\ (endswith ty "[]" = false -> startswith ty "uint" = false ->
        ty <> "bool" -> startswith ty "byte" = false ->
        coerced = Ok (key', PStr val))
    /\ (ty = "uint256" -> val = "42" -> coerced = Ok (key', PInt 42))
    /\ (ty = "bytes32" -> val = "0xabcd" ->
        coerced = Ok (key', PBytes [xab; xcd])).
Proof.
  intros cm number key val ins inp Hins Hinp ty key' coerced.
  subst coerced. rewrite (coerce_unfold _ _ _ _ _ _ Hins Hinp).
  unfold ContractCallerArgs.coerce_value. fold ty. fold key'.
  repeat apply conj.
  - intros ->. reflexivity.
  - intros -> ->. destruct (int val); reflexivity.
  - intros -> -> Hb ->. apply String.eqb_neq in Hb. rewrite Hb.
    split; intros ->; [destruct (fromhex _)|]; reflexivity.
  - intros -> -> Hb ->. apply String.eqb_neq in Hb. rewrite Hb. reflexivity.
  - intros -> ->. reflexivity.
  - intros -> ->. reflexivity.
Qed.

Lemma contains_count c s :
  contains c s = negb (Nat.eqb (count_char c s) 0).
Proof.
  induction s as [|d s IH]; [reflexivity|].
  cbn [contains count_char]. destruct (Ascii.eqb d c); [reflexivity|].
  exact IH.
Qed.

Lemma split_length c s : length (split c s) = S (count_char c s).
Proof.
  induction s as [|d s IH]; [reflexivity|].
  cbn [split count_char]. destruct (Ascii.eqb d c).
  - simpl. rewrite IH. reflexivity.
  - destruct (split c s) as [|h t]; simpl in *; lia.
Qed.

Lemma split_none c s : count_char c s = 0%nat -> split c s = [s].
Proof.
  induction s as [|d s IH]; [reflexivity|].
  cbn [split count_char]. destruct (Ascii.eqb d c); [discriminate|].
  intros H. rewrite IH by exact H. reflexivity.
Qed.

Lemma split_one c s :
  count_char c s = 1%nat ->
  exists k v, split c s = [k; v] /\ s = k +:+ String c v
    /\ count_char c k = 0%nat /\ count_char c v = 0%nat.
Proof.
  induction s as [|d s IH]; [discriminate|].
  cbn [split count_char]. destruct (Ascii.eqb d c) eqn:Hd.
  - intros H. apply Ascii.eqb_eq in Hd. subst d.
    exists "", s. rewrite split_none by lia.
    repeat split; try reflexivity. lia.
  - intros H. destruct (IH H) as (k & v & Hs & -> & Hk & Hv).
    exists (String d k), v. rewrite Hs.
    repeat split; try assumption.
    cbn [count_char]. rewrite Hd. exact Hk.
Qed.

(** C10. [convert] splits the token at every "=" and unpacks the parts into
    two names.  A token with two or more "=" raises at the unpacking, after
    the counter has been incremented, and gives no key and value; a token
    with exactly one "=" is coerced with the text before it as the key and the
    text after it as the raw value; a token without "=" is coerced by
    position. *)
Theorem convert_accepts_at_most_one_equals_sign :
  forall cm number value,
    ((2 <= count_char "="%char value)%nat ->
     ContractCallerArgs.convert json_loads cm number value
     = (number + 1, Raise (ValueError "too many values to unpack (expected 2)")))
    /\ (count_char "="%char value = 1%nat ->
        exists key val,
          value = key +:+ "=" +:+ val
          /\ count_char "="%char key = 0%nat
          /\ count_char "="%char val = 0%nat
          /\ ContractCallerArgs.convert json_loads cm number value
             = (number + 1,
                kv <- ContractCallerArgs.coerce json_loads cm (number + 1)
                        key val;
                Ok (ContractCallerArgs.convert_result kv)))
    /\ (count_char "="%char value = 0%nat ->
        ContractCallerArgs.convert json_loads cm number value
        = (number + 1,
           kv <- ContractCallerArgs.coerce json_loads cm (number + 1)
                   "" value;
           Ok (ContractCallerArgs.convert_result kv))).
Proof.
  intros cm number value. unfold ContractCallerArgs.convert.
  rewrite contains_count. repeat apply conj.
  - intros H.
    destruct (count_char "=" value) as [|[|n]] eqn:Hc; [lia|lia|].
    cbn [Nat.eqb negb].
    pose proof (split_length "="%char value) as Hl. rewrite Hc in Hl.
    destruct (split "=" value) as [|a [|b [|c l]]]; try discriminate.
    reflexivity.
  - intros H. rewrite H. cbn [Nat.eqb negb].
    destruct (split_one _ _ H) as (k & v & Hs & Hv & Hk0 & Hv0).
    exists k, v. rewrite Hs. repeat split; try assumption.
  - intros H. rewrite H. reflexivity.
Qed.

End Coercer.

(** The witness of C2: the second positional token of [configure] is the
    [bool] input. *)
Lemma coerce_bool_is_membership_of_five_texts_witness :
  exists b : bool,
    ContractCallerArgs.coerce example_json_loads
      (ContractMethod.mk example_abi "configure" []) 2 "" "True"
    = Ok (ContractCallerArgs.coerce_key "" (mkInput "enabled" "bool"), PBool b)
    /\ (b = true <->
        "True" = "true" \/ "True" = "True" \/ "True" = "1" \/ "True" = "t"
        \/ "True" = "yes").
Proof.
  apply (coerce_bool_is_membership_of_five_texts example_json_loads
           (ContractMethod.mk example_abi "configure" []) 2 "" "True"
           [mkInput "amount" "uint256"; mkInput "enabled" "bool";
            mkInput "salt" "bytes32"; mkInput "ids" "uint256[]";
            mkInput "label" "string"]
           (mkInput "enabled" "bool")).
  - vm_compute; reflexivity.
  - vm_compute; reflexivity.
  - reflexivity.
Defined.

(** C2 fails for a spelling in capitals that is not in the tuple: "TRUE" is
    "true" when case is ignored, and the coercion gives false. *)
Lemma coerce_bool_uppercase_counterexample :
  lower "TRUE" = "true"
  /\ ContractCallerArgs.coerce example_json_loads
       (ContractMethod.mk example_abi "configure" []) 2 "enabled" "TRUE"
     = Ok ("enabled", PBool false)
  /\ ~ (ContractCallerArgs.coerce example_json_loads
          (ContractMethod.mk example_abi "configure" []) 2 "enabled" "TRUE"
        = Ok ("enabled", PBool true)
        <-> In (lower "TRUE") ["true"; "1"; "t"; "yes"]).
Proof.
  split; [reflexivity|]. split; [vm_compute; reflexivity|].
  intros [_ H]. assert (Hin : In (lower "TRUE") ["true"; "1"; "t"; "yes"])
    by (left; reflexivity).
  specialize (H Hin). vm_compute in H. discriminate.
Qed.

(** The witness of C6: the two examples of the specification, on the inputs
    [amount : uint256] and [salt : bytes32] of [configure]. *)
Lemma coerce_dispatches_on_declared_type_witness :
  ContractCallerArgs.coerce example_json_loads
    (ContractMethod.mk example_abi "configure" []) 1 "" "42"
  = Ok ("amount", PInt 42)
  /\ ContractCallerArgs.coerce example_json_loads
       (ContractMethod.mk example_abi "configure" []) 1 "salt" "0xabcd"
     = Ok ("salt", PBytes [xab; xcd]).
Proof.
  split.
  - apply (coerce_dispatches_on_declared_type example_json_loads
             (ContractMethod.mk example_abi "configure" []) 1 "" "42"
             [mkInput "amount" "uint256"; mkInput "enabled" "bool";
              mkInput "salt" "bytes32"; mkInput "ids" "uint256[]";
              mkInput "label" "string"]
             (mkInput "amount" "uint256")); reflexivity.
  - apply (coerce_dispatches_on_declared_type example_json_loads
             (ContractMethod.mk example_abi "configure" []) 1 "salt" "0xabcd"
             [mkInput "amount" "uint256"; mkInput "enabled" "bool";
              mkInput "salt" "bytes32"; mkInput "ids" "uint256[]";
              mkInput "label" "string"]
             (mkInput "salt" "bytes32")); reflexivity.
Defined.

(** The witness of C10: a token with two "=", then one, then none. *)
Lemma convert_accepts_at_most_one_equals_sign_witness :
  ContractCallerArgs.convert example_json_loads
    (ContractMethod.mk example_abi "store" []) 0 "a=1=2"
  = (0 + 1, Raise (ValueError "too many values to unpack (expected 2)"))
  /\ (exists key val,
        "a=1" = key +:+ "=" +:+ val
        /\ count_char "="%char key = 0%nat
        /\ count_char "="%char val = 0%nat
        /\ ContractCallerArgs.convert example_json_loads
             (ContractMethod.mk example_abi "store" []) 0 "a=1"
           = (0 + 1,
              kv <- ContractCallerArgs.coerce example_json_loads
                      (ContractMethod.mk example_abi "store" []) (0 + 1)
                      key val;
              Ok (ContractCallerArgs.convert_result kv)))
  /\ ContractCallerArgs.convert example_json_loads
       (ContractMethod.mk example_abi "store" []) 0 "7"
     = (0 + 1,
        kv <- ContractCallerArgs.coerce example_json_loads
                (ContractMethod.mk example_abi "store" []) (0 + 1) "" "7";
        Ok (ContractCallerArgs.convert_result kv)).
Proof.
  split; [|split].
  - apply (convert_accepts_at_most_one_equals_sign example_json_loads
             (ContractMethod.mk example_abi "store" []) 0 "a=1=2").
    simpl; lia.
  - apply (convert_accepts_at_most_one_equals_sign example_json_loads
             (ContractMethod.mk example_abi "store" []) 0 "a=1").
    reflexivity.
  - apply (convert_accepts_at_most_one_equals_sign example_json_loads
             (ContractMethod.mk example_abi "store" []) 0 "7").
    reflexivity.
Defined.

(** ** The pre-flight check *)

Lemma append_assoc (a b c : string) : (a +:+ b) +:+ c = a +:+ b +:+ c.
Proof.
  induction a as [|x a IH]; [reflexivity|]. exact (f_equal (String x) IH).
Qed.

Lemma append_nil_r (a : string) : a +:+ "" = a.
Proof.
  induction a as [|x a IH]; [reflexivity|]. exact (f_equal (String x) IH).
Qed.

Lemma occurs_in_append_l (n a b : string) :
  occurs_in n b -> occurs_in n (a +:+ b).
Proof.
  intros (pre & post & ->). exists (a +:+ pre), post.
  rewrite append_assoc. reflexivity.
Qed.

Lemma join_occurs (sep : string) (l : list string) (n : string) :
  n ∈ l -> occurs_in n (join sep l).
Proof.
  induction l as [|x l IH]; intros Hin.
  - apply elem_of_nil in Hin. contradiction.
  - apply elem_of_cons in Hin as [->|Hin].
    + destruct l as [|y l].
      * exists "", "". simpl. rewrite append_nil_r. reflexivity.
      * exists "", (sep +:+ join sep (y :: l)). reflexivity.
    + destruct l as [|y l]; [apply elem_of_nil in Hin; contradiction|].
      change (join sep (x :: y :: l)) with (x +:+ sep +:+ join sep (y :: l)).
      apply occurs_in_append_l, occurs_in_append_l, IH, Hin.
Qed.

Lemma check_missing (cm : ContractMethod.t) (missing : gset string) :
  ContractMethod.missing_names cm = Ok missing ->
  missing <> ∅ ->
  ContractMethod.check cm
  = ([LogError ("You need to provide values for "
                  +:+ join ", " (elements missing))], Ok false).
Proof.
  intros Hm Hne. unfold ContractMethod.check. rewrite Hm.
  rewrite bool_decide_eq_false_2 by exact Hne. reflexivity.
Qed.

Lemma call_aborts_when_check_fails w transact cm msg :
  ContractMethod.check cm = ([LogError msg], Ok false) ->
  _call w transact cm = ([LogError msg], Raise (SystemExit 1)).
Proof. intros H. unfold _call. rewrite H. reflexivity. Qed.

Lemma inputs_single f ins outs mut args :
  ContractMethod.inputs
    (ContractMethod.mk [mkMethod (Some f) ins outs mut] f args) = Ok ins.
Proof.
  unfold ContractMethod.inputs, ContractMethod.abi.
  cbn [ContractMethod.eth_abi ContractMethod.function].
  rewrite filter_cons, decide_True by reflexivity.
  rewrite filter_nil. reflexivity.
Qed.

Lemma coerce_input_a ta tb number :
  ContractCallerArgs.coerce_input [mkInput "a" ta; mkInput "b" tb] number "a"
  = Ok (mkInput "a" ta).
Proof.
  unfold ContractCallerArgs.coerce_input.
  change (negb ("a" =? "")%string) with true. cbv iota.
  rewrite filter_cons, decide_True by reflexivity. reflexivity.
Qed.

(** The example of the specification: a function with the inputs [a] and
    [b], of any types, and the tokens ["a=1"]. *)
Lemma missing_names_example json_loads ta tb outs mut f n args :
  let abi := [mkMethod (Some f) [mkInput "a" ta; mkInput "b" tb] outs mut] in
  ContractCallerArgs.convert_all json_loads (ContractMethod.mk abi f []) 0
    ["a=1"] = (n, Ok args) ->
  ContractMethod.missing_names (ContractMethod.mk abi f args) = Ok {["b"]}
  /\ ContractMethod.check (ContractMethod.mk abi f args)
     = ([LogError "You need to provide values for b"], Ok false).
Proof.
  intros abi Hconv. subst abi.
  assert (Hargs : exists v, args = [PDict [(KStr "a", v)]]).
  { revert Hconv. cbn [ContractCallerArgs.convert_all].
    unfold ContractCallerArgs.convert.
    change (contains "=" "a=1") with true. cbv iota.
    change (split "=" "a=1") with ["a"; "1"].
    cbn [ContractCallerArgs.unpack2 bind fst snd].
    unfold ContractCallerArgs.coerce.
    rewrite inputs_single. cbn [bind]. rewrite coerce_input_a. cbn [bind].
    destruct (ContractCallerArgs.coerce_value json_loads _ "1") as [v|e];
      cbn [bind].
    - intros [= _ <-]. exists v. reflexivity.
    - discriminate. }
  destruct Hargs as [v ->].
  assert (Hm : ContractMethod.missing_names
                 (ContractMethod.mk
                    [mkMethod (Some f) [mkInput "a" ta; mkInput "b" tb]
                              outs mut] f [PDict [(KStr "a", v)]])
               = Ok {["b"]}).
  { unfold ContractMethod.missing_names, ContractMethod.needed_names.
    rewrite inputs_single. cbn [bind].
    vm_compute. reflexivity. }
  split; [exact Hm|].
  rewrite (check_missing _ _ Hm) by (apply non_empty_singleton_L).
  rewrite elements_singleton. reflexivity.
Qed.

(** C4. [missing_names] is [needed_names], the set of the declared input
    names that are not empty, minus [given_names], the names that the
    converted tokens carry.  When it is not empty, [check] logs an error that
    names every missing input and [_call] exits with status 1 after that log
    alone: no request is sent, neither of the call path nor of the transact
    path.  For a function with the inputs [a] and [b] and the tokens
    ["a=1"], [missing_names] is the set of ["b"] alone and the command
    exits. *)
Theorem missing_inputs_abort_before_any_request :
  forall (w : World) (transact : option bool),
    (forall (cm : ContractMethod.t) (ins : list Input),
       ContractMethod.inputs cm = Ok ins ->
       let needed : gset string :=
         list_to_set
           (map input_name (filter (fun input => input_name input <> "") ins)) in
       let missing : gset string := needed ∖ ContractMethod.given_names cm in
       ContractMethod.needed_names cm = Ok needed
       /\ (forall n : string,
             n ∈ ContractMethod.given_names cm
             <-> exists v, (KStr n, v) ∈ ContractMethod._kwargs cm)
       /\ ContractMethod.missing_names cm = Ok missing
       /\ (missing <> ∅ ->
           exists msg : string,
             ContractMethod.check cm = ([LogError msg], Ok false)
             /\ _call w transact cm = ([LogError msg], Raise (SystemExit 1))
             /\ (forall n : string, n ∈ missing -> occurs_in n msg)
             /\ forallb (fun ev => negb (is_rpc ev))
                        (fst (_call w transact cm)) = true))
    /\ (forall json_loads ta tb outs mut f n args,
          let abi :=
            [mkMethod (Some f) [mkInput "a" ta; mkInput "b" tb] outs mut] in
          ContractCallerArgs.convert_all json_loads
            (ContractMethod.mk abi f []) 0 ["a=1"] = (n, Ok args) ->
          ContractMethod.missing_names (ContractMethod.mk abi f args)
          = Ok {["b"]}
          /\ _call w transact (ContractMethod.mk abi f args)
             = ([LogError "You need to provide values for b"],
                Raise (SystemExit 1))).
Proof.
  intros w transact. split.
  - intros cm ins Hins needed missing.
    assert (Hneeded : ContractMethod.needed_names cm = Ok needed).
    { unfold ContractMethod.needed_names. rewrite Hins. reflexivity. }
    assert (Hmissing : ContractMethod.missing_names cm = Ok missing).
    { unfold ContractMethod.missing_names. rewrite Hneeded. reflexivity. }
    split; [exact Hneeded|]. split; [|split; [exact Hmissing|]].
    + intros n. unfold ContractMethod.given_names.
      rewrite elem_of_list_to_set, list_elem_of_omap. split.
      * intros ([k v] & Hin & Hk). cbn [fst] in Hk.
        destruct k; try discriminate. injection Hk as ->. eauto.
      * intros (v & Hin). exists (KStr n, v). split; [exact Hin|reflexivity].
    + intros Hne.
      exists ("You need to provide values for "
                +:+ join ", " (elements missing)).
      pose proof (check_missing cm missing Hmissing Hne) as Hcheck.
      pose proof (call_aborts_when_check_fails w transact cm _ Hcheck) as Hcall.
      split; [exact Hcheck|]. split; [exact Hcall|]. split.
      * intros n Hn. apply occurs_in_append_l, join_occurs.
        apply elem_of_elements. exact Hn.
      * rewrite Hcall. reflexivity.
  - intros json_loads ta tb outs mut f n args abi Hconv.
    destruct (missing_names_example json_loads ta tb outs mut f n args Hconv)
      as [Hm Hcheck].
    split; [exact Hm|].
    apply call_aborts_when_check_fails. exact Hcheck.
Qed.

(** The witness of C4: [store] has the inputs [a] and [b], and the tokens
    ["a=1"] convert to the single named argument [a]. *)
Lemma missing_inputs_abort_before_any_request_witness :
  (exists msg : string,
     ContractMethod.check
       (ContractMethod.mk example_abi "store" [PDict [(KStr "a", PInt 1)]])
     = ([LogError msg], Ok false)
     /\ _call example_world None
          (ContractMethod.mk example_abi "store" [PDict [(KStr "a", PInt 1)]])
        = ([LogError msg], Raise (SystemExit 1))
     /\ (forall n : string,
           n ∈ (list_to_set
                  (map input_name
                     (filter (fun input => input_name input <> "")
                             [mkInput "a" "uint256"; mkInput "b" "uint256"]))
                ∖ ContractMethod.given_names
                    (ContractMethod.mk example_abi "store"
                       [PDict [(KStr "a", PInt 1)]]) : gset string) ->
           occurs_in n msg)
     /\ forallb (fun ev => negb (is_rpc ev))
          (fst (_call example_world None
                  (ContractMethod.mk example_abi "store"
                     [PDict [(KStr "a", PInt 1)]]))) = true)
  /\ ContractMethod.missing_names
       (ContractMethod.mk
          [mkMethod (Some "store")
                    [mkInput "a" "uint256"; mkInput "b" "uint256"]
                    (Some []) "nonpayable"]
          "store" [PDict [(KStr "a", PInt 1)]])
     = Ok {["b"]}
  /\ _call example_world None
       (ContractMethod.mk
          [mkMethod (Some "store")
                    [mkInput "a" "uint256"; mkInput "b" "uint256"]
                    (Some []) "nonpayable"]
          "store" [PDict [(KStr "a", PInt 1)]])
     = ([LogError "You need to provide values for b"], Raise (SystemExit 1)).
Proof.
  destruct (missing_inputs_abort_before_any_request example_world None)
    as [Hgeneral Hexample].
  split.
  - apply (Hgeneral
             (ContractMethod.mk example_abi "store" [PDict [(KStr "a", PInt 1)]])
             [mkInput "a" "uint256"; mkInput "b" "uint256"]).
    + vm_compute; reflexivity.
    + intros H. apply (f_equal elements) in H. vm_compute in H. discriminate.
  - apply (Hexample example_json_loads "uint256" "uint256" (Some [])
             "nonpayable" "store" 1 [PDict [(KStr "a", PInt 1)]]).
    vm_compute; reflexivity.
Defined.

(** ** The dispatch *)

Lemma check_passes (cm : ContractMethod.t) :
  ContractMethod.missing_names cm = Ok ∅ ->
  ContractMethod.check cm = ([], Ok true).
Proof.
  intros H. unfold ContractMethod.check. rewrite H.
  rewrite bool_decide_eq_true_2 by reflexivity. reflexivity.
Qed.

Lemma io_bind_ret_l {A B : Type} (a : A) (k : A -> io B) :
  io_bind (io_ret a) k = k a.
Proof. unfold io_bind, io_ret. destruct (k a). reflexivity. Qed.

(** C5. When the pre-flight check passes and no flag is given, [_call]
    takes the transact path when the declared mutability is not "view" and
    the call path when it is; the two paths differ from their first event
    on.  When the flag asks for a transaction on a "view" function, the
    confirmation is asked first, and the transact path runs only on the
    answer yes: on the answer no the call path runs, and when the question
    is aborted nothing else happens. *)
Theorem dispatch_follows_mutability_and_confirms_view :
  forall (w : World) (cm : ContractMethod.t) (a : Method),
    ContractMethod.missing_names cm = Ok ∅ ->
    ContractMethod.abi cm = Ok a ->
    (stateMutability a <> "view" ->
     _call w None cm = transact_and_print w cm)
    /\ (stateMutability a = "view" -> _call w None cm = call_and_print w cm)
    /\ head (fst (transact_and_print w cm))
       = Some (FunctionsTransact (ContractMethod.function cm)
                 (ContractMethod._args cm) (ContractMethod._kwargs cm))
    /\ head (fst (call_and_print w cm))
       = Some (CallerCall (ContractMethod.function cm)
                 (ContractMethod._args cm) (ContractMethod._kwargs cm))
    /\ (stateMutability a = "view" ->
        let question := Confirm "Transacting a view. Are you sure?" in
        (confirm_answer w = Ok true ->
         _call w (Some true) cm
         = (question :: fst (transact_and_print w cm),
            snd (transact_and_print w cm)))
        /\ (confirm_answer w = Ok false ->
            _call w (Some true) cm
            = (question :: fst (call_and_print w cm),
               snd (call_and_print w cm)))
        /\ (forall e, confirm_answer w = Raise e ->
            _call w (Some true) cm = ([question], Raise e))).
Proof.
  intros w cm a Hmissing Habi.
  pose proof (check_passes cm Hmissing) as Hcheck.
  assert (Hcall : forall transact,
    _call w transact cm
    = io_bind
        (match transact with
         | None =>
             io_bind (io_lift (ContractMethod.abi cm))
               (fun a => io_ret (negb (String.eqb (stateMutability a) "view")))
         | Some false => io_ret false
         | Some true =>
             io_bind (io_lift (ContractMethod.abi cm))
               (fun a =>
                  if negb (String.eqb (stateMutability a) "view")
                  then io_ret true
                  else io_emit (Confirm "Transacting a view. Are you sure?")
                               (confirm_answer w))
         end)
        (fun transact : bool =>
           if transact then transact_and_print w cm else call_and_print w cm)).
  { intros transact. unfold _call. rewrite Hcheck.
    change (@nil event, Ok true) with (@io_ret bool true).
    rewrite io_bind_ret_l. reflexivity. }
  split; [|split; [|split; [|split]]].
  - intros Hmut. rewrite Hcall, Habi.
    apply String.eqb_neq in Hmut.
    change (io_lift (Ok a)) with (io_ret a). rewrite io_bind_ret_l.
    rewrite Hmut. cbn [negb]. rewrite io_bind_ret_l. reflexivity.
  - intros Hmut. rewrite Hcall, Habi.
    apply String.eqb_eq in Hmut.
    change (io_lift (Ok a)) with (io_ret a). rewrite io_bind_ret_l.
    rewrite Hmut. cbn [negb]. rewrite io_bind_ret_l. reflexivity.
  - unfold transact_and_print, ContractMethod.transact, io_bind, io_emit.
    destruct (transact_answer w); [|reflexivity].
    destruct (receipt_answer w); reflexivity.
  - unfold call_and_print, ContractMethod.call, io_bind, io_emit, io_lift.
    destruct (call_answer w); [|reflexivity].
    destruct (ContractMethod.coerce cm a0); reflexivity.
  - intros Hmut question. apply String.eqb_eq in Hmut.
    assert (Hq : _call w (Some true) cm
                 = io_bind (io_emit question (confirm_answer w))
                     (fun transact : bool =>
                        if transact then transact_and_print w cm
                        else call_and_print w cm)).
    { rewrite Hcall, Habi.
      change (io_lift (Ok a)) with (io_ret a). rewrite io_bind_ret_l.
      rewrite Hmut. reflexivity. }
    rewrite Hq. unfold io_bind, io_emit.
    split; [|split].
    + intros ->. destruct (transact_and_print w cm). reflexivity.
    + intros ->. destruct (call_and_print w cm). reflexivity.
    + intros e ->. reflexivity.
Qed.

(** The witness of C5: [balanceOf] is a "view" function with its one input
    given, and the operator answers yes. *)
Lemma dispatch_follows_mutability_and_confirms_view_witness :
  _call example_world None
    (ContractMethod.mk example_abi "balanceOf"
       [PDict [(KStr "owner", PStr "0xAA")]])
  = call_and_print example_world
      (ContractMethod.mk example_abi "balanceOf"
         [PDict [(KStr "owner", PStr "0xAA")]])
  /\ _call example_world (Some true)
       (ContractMethod.mk example_abi "balanceOf"
          [PDict [(KStr "owner", PStr "0xAA")]])
     = (Confirm "Transacting a view. Are you sure?"
          :: fst (transact_and_print example_world
                    (ContractMethod.mk example_abi "balanceOf"
                       [PDict [(KStr "owner", PStr "0xAA")]])),
        snd (transact_and_print example_world
               (ContractMethod.mk example_abi "balanceOf"
                  [PDict [(KStr "owner", PStr "0xAA")]]))).
Proof.
  destruct (dispatch_follows_mutability_and_confirms_view example_world
              (ContractMethod.mk example_abi "balanceOf"
                 [PDict [(KStr "owner", PStr "0xAA")]])
              (mkMethod (Some "balanceOf") [mkInput "owner" "address"]
                        (Some [mkOutput "uint256"]) "view"))
    as (_ & Hview & _ & _ & Hconfirm).
  - vm_compute; reflexivity.
  - vm_compute; reflexivity.
  - split.
    + apply Hview. reflexivity.
    + apply Hconfirm; reflexivity.
Defined.

(** ** The command [move_to_time] *)





(** ** The response normaliser *)

Section Dictionaries.

Context {V : Type}.

Implicit Types (d items : list (key * V)) (k : key) (v : V).

Lemma dict_setitem_fresh d k v :
  key_fresh k (map fst d) = true -> dict_setitem d k v = d ++ [(k, v)].
Proof.
  induction d as [|[k' v'] d IH]; [reflexivity|].
  cbn [map fst key_fresh forallb dict_setitem]. intros H.
  apply andb_prop in H as [Hk Hd]. apply negb_true_iff in Hk.
  rewrite Hk. cbn [app]. f_equal. apply IH, Hd.
Qed.

Lemma dict_setitem_keys_hit d k v :
  key_fresh k (map fst d) = false ->
  map fst (dict_setitem d k v) = map fst d.
Proof.
  induction d as [|[k' v'] d IH]; [discriminate|].
  cbn [map fst key_fresh forallb dict_setitem]. intros H.
  destruct (key_eqb k' k); [reflexivity|].
  cbn [map fst]. f_equal. apply IH. exact H.
Qed.

Lemma dict_setitem_wf d k v :
  keys_wf (map fst d) -> keys_wf (map fst (dict_setitem d k v)).
Proof.
  intros Hwf. destruct (key_fresh k (map fst d)) eqn:Hf.
  - rewrite dict_setitem_fresh by exact Hf. rewrite map_app.
    apply keys_wf_snoc; assumption.
  - rewrite dict_setitem_keys_hit by exact Hf. exact Hwf.
Qed.

Lemma dict_update_wf items : forall d,
  keys_wf (map fst d) -> keys_wf (map fst (dict_update d items)).
Proof.
  induction items as [|[k v] items IH]; intros d Hwf; [exact Hwf|].
  apply IH, dict_setitem_wf, Hwf.
Qed.

Lemma keys_wf_snoc_inv ks k :
  keys_wf (ks ++ [k]) -> keys_wf ks /\ key_fresh k ks = true.
Proof.
  intros H. inversion H as [Hnil|ks' k' Hwf Hf Heq].
  - destruct ks; discriminate.
  - apply app_inj_tail in Heq as [-> ->]. split; assumption.
Qed.

Lemma dict_of_items_wf_id d : keys_wf (map fst d) -> dict_of_items d = d.
Proof.
  induction d as [|[k v] d IH] using rev_ind; [reflexivity|].
  rewrite map_app. cbn [map fst]. intros H.
  apply keys_wf_snoc_inv in H as [Hwf Hf].
  unfold dict_of_items, dict_update in *. rewrite fold_left_app.
  cbn [fold_left fst snd]. rewrite IH by exact Hwf.
  apply dict_setitem_fresh, Hf.
Qed.

Lemma dict_setitem_Forall (Q : key * V -> Prop) d k v :
  (forall k' v', Q (k', v') -> Q (k', v)) ->
  Forall Q d -> Q (k, v) -> Forall Q (dict_setitem d k v).
Proof.
  intros Hrepl Hd Hkv. induction Hd as [|[k' v'] d Hx Hd IH].
  - constructor; [exact Hkv|constructor].
  - cbn [dict_setitem]. destruct (key_eqb k' k).
    + constructor; [eapply Hrepl; exact Hx|exact Hd].
    + constructor; [exact Hx|exact IH].
Qed.

Lemma dict_update_Forall (Pk : key -> Prop) (Pv : V -> Prop) items :
  forall d,
    Forall (fun kv => Pk kv.1 /\ Pv kv.2) d ->
    Forall (fun kv => Pk kv.1 /\ Pv kv.2) items ->
    Forall (fun kv => Pk kv.1 /\ Pv kv.2) (dict_update d items).
Proof.
  induction items as [|[k v] items IH]; intros d Hd Hitems; [exact Hd|].
  inversion Hitems as [|? ? [Hk Hv] Hrest]; subst.
  apply IH; [|exact Hrest].
  apply dict_setitem_Forall; [|exact Hd|split; assumption].
  intros k' v' [Hk' _]. split; assumption.
Qed.

End Dictionaries.

Lemma make_serializable_key_idempotent (k : key) :
  make_serializable_key (make_serializable_key k) = make_serializable_key k.
Proof. destruct k; reflexivity. Qed.

Lemma map_fixed {A : Type} (f : A -> A) (l : list A) :
  Forall (fun x => f x = x) l -> map f l = l.
Proof.
  induction 1 as [|x l Hx Hl IH]; [reflexivity|].
  cbn [map]. rewrite Hx, IH. reflexivity.
Qed.

Lemma serializable_dict_idempotent (items : list (key * pyval)) :
  Forall (fun kv => make_serializable (make_serializable kv.2)
                    = make_serializable kv.2) items ->
  make_serializable (serializable_dict_of make_serializable items)
  = serializable_dict_of make_serializable items.
Proof.
  intros IH. unfold serializable_dict_of.
  set (f := fun kv : key * pyval =>
              (make_serializable_key kv.1, make_serializable kv.2)).
  set (D := dict_of_items (map f items)).
  change (make_serializable (PDict D)) with (PDict (dict_of_items (map f D))).
  f_equal.
  assert (Hfix : Forall (fun kv => make_serializable_key kv.1 = kv.1
                                   /\ make_serializable kv.2 = kv.2) D).
  { apply (dict_update_Forall
             (fun k => make_serializable_key k = k)
             (fun v => make_serializable v = v)); [constructor|].
    apply Forall_map. eapply Forall_impl; [exact IH|].
    intros [k v] Hv. cbn [f fst snd] in *. split; [|exact Hv].
    apply make_serializable_key_idempotent. }
  rewrite (map_fixed f D).
  - apply dict_of_items_wf_id. apply dict_update_wf. constructor.
  - eapply Forall_impl; [exact Hfix|].
    intros [k v] [Hk Hv]. unfold f. cbn [fst snd] in *. congruence.
Qed.

Lemma make_serializable_idempotent (data : pyval) :
  make_serializable (make_serializable data) = make_serializable data.
Proof.
  induction data as [| | | | | |l IH|l IH|items IH|items IH|]
    using pyval_nested_ind; try reflexivity.
  - cbn [make_serializable]. f_equal. rewrite map_map.
    apply map_ext_Forall. exact IH.
  - apply serializable_dict_idempotent. exact IH.
  - apply serializable_dict_idempotent. exact IH.
Qed.

(** *** On the store: nothing that exists is changed *)

Lemma alloc_subseteq (h : gmap loc hobj) (o : hobj) : h ⊆ (alloc h o).1.
Proof.
  unfold alloc. cbn [fst]. apply insert_subseteq.
  apply not_elem_of_dom. apply is_fresh.
Qed.

Lemma alloc_new (h0 h : gmap loc hobj) (o : hobj) :
  h0 ⊆ h ->
  exists l, (alloc h o).2 = HRef l /\ h0 !! l = None
            /\ (alloc h o).1 !! l = Some o.
Proof.
  intros Hsub. exists (fresh (dom h)). unfold alloc. cbn [fst snd].
  split; [reflexivity|]. split; [|apply lookup_insert_eq].
  assert (Hnone : h !! fresh (dom h) = None)
    by (apply not_elem_of_dom, is_fresh).
  destruct (h0 !! fresh (dom h)) as [o'|] eqn:Ho; [|reflexivity].
  rewrite (lookup_weaken _ _ _ _ Ho Hsub) in Hnone. discriminate.
Qed.

Section Growing.

Variable f : gmap loc hobj -> hval -> option (gmap loc hobj * hval).

Hypothesis f_grows : forall h x h' y, f h x = Some (h', y) -> h ⊆ h'.

Lemma comprehension_h_grows elems : forall h h' ys,
  comprehension_h f h elems = Some (h', ys) -> h ⊆ h'.
Proof.
  induction elems as [|x elems IH]; intros h h' ys; cbn [comprehension_h].
  - intros [= <- _]. reflexivity.
  - destruct (f h x) as [[h1 y]|] eqn:Hx; [|discriminate].
    destruct (comprehension_h f h1 elems) as [[h2 ys']|] eqn:Hrest;
      [|discriminate].
    intros [= <- _]. transitivity h1; [eapply f_grows|eapply IH]; eassumption.
Qed.

Lemma items_h_grows items : forall h h' ys,
  items_h f h items = Some (h', ys) -> h ⊆ h'.
Proof.
  induction items as [|[k x] items IH]; intros h h' ys; cbn [items_h].
  - intros [= <- _]. reflexivity.
  - destruct (f h x) as [[h1 y]|] eqn:Hx; [|discriminate].
    destruct (items_h f h1 items) as [[h2 ys']|] eqn:Hrest; [|discriminate].
    intros [= <- _]. transitivity h1; [eapply f_grows|eapply IH]; eassumption.
Qed.

End Growing.

Lemma make_serializable_h_grows fuel : forall h data h' r,
  make_serializable_h fuel h data = Some (h', r) -> h ⊆ h'.
Proof.
  induction fuel as [|fuel IH]; intros h data h' r; [discriminate|].
  cbn [make_serializable_h].
  destruct data as [| | | | | | |l|]; try (intros [= <- _]; reflexivity).
  destruct (h !! l) as [[elems|items|items]|]; [| | |discriminate].
  - destruct (comprehension_h (make_serializable_h fuel) h elems)
      as [[h1 elems']|] eqn:Hc; [|discriminate].
    intros H. transitivity h1.
    + eapply comprehension_h_grows; [exact IH|exact Hc].
    + replace h' with (alloc h1 (OList elems')).1 by (injection H as <- _; reflexivity).
      apply alloc_subseteq.
  - unfold serializable_dict_h.
    destruct (items_h (make_serializable_h fuel) h items)
      as [[h1 items']|] eqn:Hc; [|discriminate].
    intros H. transitivity h1.
    + eapply items_h_grows; [exact IH|exact Hc].
    + replace h' with (alloc h1 (ODict (dict_of_items items'))).1
        by (injection H as <- _; reflexivity).
      apply alloc_subseteq.
  - unfold serializable_dict_h.
    destruct (items_h (make_serializable_h fuel) h items)
      as [[h1 items']|] eqn:Hc; [|discriminate].
    intros H. transitivity h1.
    + eapply items_h_grows; [exact IH|exact Hc].
    + replace h' with (alloc h1 (ODict (dict_of_items items'))).1
        by (injection H as <- _; reflexivity).
      apply alloc_subseteq.
Qed.

(** *** On the store: the result is the normalised tree *)

Lemma all2_impl {A B : Type} (R R' : A -> B -> Prop) (l : list A) :
  forall l' : list B,
    Forall (fun x => forall y, R x y -> R' x y) l ->
    all2 R l l' -> all2 R' l l'.
Proof.
  induction l as [|x l IH]; intros [|y l'] Himp H; cbn [all2] in *;
    try assumption.
  inversion Himp as [|? ? Hx Hl]; subst. destruct H as [Hxy H].
  split; [apply Hx, Hxy|apply IH; assumption].
Qed.

Lemma is_tree_weaken (h h' : gmap loc hobj) (p : pyval) :
  h ⊆ h' -> forall v, is_tree h p v -> is_tree h' p v.
Proof.
  intros Hsub.
  induction p as [| | | | | |pl IH|pl IH|pitems IH|pitems IH|]
    using pyval_nested_ind; intros v; cbn [is_tree]; try (intros H; exact H).
  - intros (l & elems & -> & Hl & Hall). exists l, elems.
    split; [reflexivity|]. split; [eapply lookup_weaken; eassumption|].
    eapply all2_impl; [|exact Hall]. exact IH.
  - intros (l & -> & Hall). exists l. split; [reflexivity|].
    eapply all2_impl; [|exact Hall]. exact IH.
  - intros (l & items & -> & Hl & Hall). exists l, items.
    split; [reflexivity|]. split; [eapply lookup_weaken; eassumption|].
    eapply all2_impl; [|exact Hall].
    eapply Forall_impl; [exact IH|].
    intros pkv Hp kv [Hk Hv]. split; [exact Hk|apply Hp, Hv].
  - intros (l & items & -> & Hl & Hall). exists l, items.
    split; [reflexivity|]. split; [eapply lookup_weaken; eassumption|].
    eapply all2_impl; [|exact Hall].
    eapply Forall_impl; [exact IH|].
    intros pkv Hp kv [Hk Hv]. split; [exact Hk|apply Hp, Hv].
Qed.

Lemma all2_is_tree_weaken (h h' : gmap loc hobj) pl l :
  h ⊆ h' -> all2 (is_tree h) pl l -> all2 (is_tree h') pl l.
Proof.
  intros Hsub. apply all2_impl. apply Forall_forall.
  intros p _ v. apply is_tree_weaken, Hsub.
Qed.

Lemma all2_items_weaken (h h' : gmap loc hobj)
    (pitems : list (key * pyval)) (items : list (key * hval)) :
  h ⊆ h' ->
  all2 (fun pkv kv => pkv.1 = kv.1 /\ is_tree h pkv.2 kv.2) pitems items ->
  all2 (fun pkv kv => pkv.1 = kv.1 /\ is_tree h' pkv.2 kv.2) pitems items.
Proof.
  intros Hsub. apply all2_impl. apply Forall_forall.
  intros pkv _ kv [Hk Hv]. split; [exact Hk|].
  eapply is_tree_weaken; eassumption.
Qed.

(** Setting an item keeps two dictionaries with the same keys and related
    values related. *)
Lemma dict_setitem_all2 {V W : Type} (R : V -> W -> Prop)
    (pd : list (key * V)) : forall (d : list (key * W)) k pv v,
  all2 (fun pkv kv => pkv.1 = kv.1 /\ R pkv.2 kv.2) pd d ->
  R pv v ->
  all2 (fun pkv kv => pkv.1 = kv.1 /\ R pkv.2 kv.2)
       (dict_setitem pd k pv) (dict_setitem d k v).
Proof.
  induction pd as [|[pk pv'] pd IH]; intros [|[k' v'] d] k pv v Hall Hv;
    cbn [all2] in Hall; try contradiction.
  - cbn. auto.
  - destruct Hall as [[Hk Hv'] Hall]. cbn [fst snd] in Hk, Hv'. subst k'.
    cbn [dict_setitem]. destruct (key_eqb pk k); cbn [all2 fst snd].
    + auto.
    + split; [auto|]. apply IH; assumption.
Qed.

Lemma dict_update_all2 {V W : Type} (R : V -> W -> Prop)
    (pitems : list (key * V)) : forall (items : list (key * W)) pd d,
  all2 (fun pkv kv => pkv.1 = kv.1 /\ R pkv.2 kv.2) pd d ->
  all2 (fun pkv kv => pkv.1 = kv.1 /\ R pkv.2 kv.2) pitems items ->
  all2 (fun pkv kv => pkv.1 = kv.1 /\ R pkv.2 kv.2)
       (dict_update pd pitems) (dict_update d items).
Proof.
  induction pitems as [|[pk pv] pitems IH]; intros [|[k v] items] pd d Hd Hall;
    cbn [all2] in Hall; try contradiction.
  - exact Hd.
  - destruct Hall as [[Hk Hv] Hall]. cbn [fst snd] in Hk, Hv. subst k.
    unfold dict_update. cbn [fold_left fst snd].
    apply IH; [|exact Hall]. apply dict_setitem_all2; assumption.
Qed.

Lemma computes_list (pl : list pyval) :
  Forall computes pl ->
  exists n : nat, forall fuel : nat, (n <= fuel)%nat ->
    forall h elems, all2 (is_tree h) pl elems ->
      exists h' rs,
        comprehension_h (make_serializable_h fuel) h elems = Some (h', rs)
        /\ all2 (is_tree h') (map make_serializable pl) rs
        /\ h ⊆ h'.
Proof.
  induction 1 as [|p pl (n1 & Hp) _ (n2 & IH)].
  - exists 0%nat. intros fuel _ h [|y elems] Hall; [|contradiction].
    exists h, []. split; [reflexivity|]. split; [exact I|reflexivity].
  - exists (Nat.max n1 n2). intros fuel Hfuel h [|y elems] Hall;
      [contradiction|].
    destruct Hall as [Hy Hall].
    destruct (Hp fuel ltac:(lia) h y Hy) as (h1 & r & Hr & Htree & Hsub1).
    destruct (IH fuel ltac:(lia) h1 elems
                (all2_is_tree_weaken _ _ _ _ Hsub1 Hall))
      as (h2 & rs & Hrs & Htrees & Hsub2).
    exists h2, (r :: rs). cbn [comprehension_h]. rewrite Hr, Hrs.
    split; [reflexivity|]. split.
    + cbn [map all2]. split; [|exact Htrees].
      eapply is_tree_weaken; eassumption.
    + transitivity h1; assumption.
Qed.

Lemma computes_items (pitems : list (key * pyval)) :
  Forall (fun kv => computes kv.2) pitems ->
  exists n : nat, forall fuel : nat, (n <= fuel)%nat ->
    forall h items,
      all2 (fun pkv kv => pkv.1 = kv.1 /\ is_tree h pkv.2 kv.2) pitems items ->
      exists h' ys,
        items_h (make_serializable_h fuel) h items = Some (h', ys)
        /\ all2 (fun pkv kv => pkv.1 = kv.1 /\ is_tree h' pkv.2 kv.2)
             (map (fun kv => (make_serializable_key kv.1,
                              make_serializable kv.2)) pitems)
             ys
        /\ h ⊆ h'.
Proof.
  induction 1 as [|[pk p] pitems (n1 & Hp) _ (n2 & IH)].
  - exists 0%nat. intros fuel _ h [|y items] Hall; [|contradiction].
    exists h, []. split; [reflexivity|]. split; [exact I|reflexivity].
  - exists (Nat.max n1 n2). intros fuel Hfuel h [|[k y] items] Hall;
      [contradiction|].
    destruct Hall as [[Hk Hy] Hall]. cbn [fst snd] in Hk, Hy, Hp. subst k.
    destruct (Hp fuel ltac:(lia) h y Hy) as (h1 & r & Hr & Htree & Hsub1).
    destruct (IH fuel ltac:(lia) h1 items
                (all2_items_weaken _ _ _ _ Hsub1 Hall))
      as (h2 & ys & Hys & Htrees & Hsub2).
    exists h2, ((make_serializable_key pk, r) :: ys).
    cbn [items_h]. rewrite Hr, Hys.
    split; [reflexivity|]. split.
    + cbn [map all2 fst snd]. split; [|exact Htrees].
      split; [reflexivity|]. eapply is_tree_weaken; eassumption.
    + transitivity h1; assumption.
Qed.

Lemma computes_dict (pitems : list (key * pyval)) :
  Forall (fun kv => computes kv.2) pitems ->
  exists n : nat, forall fuel : nat, (n <= fuel)%nat ->
    forall h items,
      all2 (fun pkv kv => pkv.1 = kv.1 /\ is_tree h pkv.2 kv.2) pitems items ->
      exists h' r,
        serializable_dict_h (make_serializable_h fuel) h items = Some (h', r)
        /\ is_tree h' (serializable_dict_of make_serializable pitems) r
        /\ h ⊆ h'.
Proof.
  intros Hall. destruct (computes_items pitems Hall) as (n & Hn).
  exists n. intros fuel Hfuel h items Htree.
  destruct (Hn fuel Hfuel h items Htree) as (h1 & ys & Hys & Htrees & Hsub).
  unfold serializable_dict_h. rewrite Hys.
  destruct (alloc_new h1 h1 (ODict (dict_of_items ys)) ltac:(reflexivity))
    as (l & Hl & _ & Hlookup).
  pose proof (alloc_subseteq h1 (ODict (dict_of_items ys))) as Hsub'.
  destruct (alloc h1 (ODict (dict_of_items ys))) as [h2 r].
  cbn [fst snd] in *. subst r.
  exists h2, (HRef l). split; [reflexivity|]. split.
  - unfold serializable_dict_of. cbn [is_tree].
    exists l, (dict_of_items ys). split; [reflexivity|].
    split; [exact Hlookup|].
    apply (dict_update_all2 (is_tree h2)); [exact I|].
    eapply all2_items_weaken; eassumption.
  - transitivity h1; assumption.
Qed.

Lemma make_serializable_h_computes (p : pyval) : computes p.
Proof.
  induction p as [| | | | | |pl IH|pl IH|pitems IH|pitems IH|]
    using pyval_nested_ind.
  1-6, 11: exists 1%nat; intros [|fuel] Hfuel h v Hv; [lia|];
    cbn [is_tree] in Hv; subst v; exists h; eexists;
    (split; [reflexivity|]); (split; [reflexivity|reflexivity]).
  - destruct (computes_list pl IH) as (n & Hn).
    exists (S n). intros [|fuel] Hfuel h v Hv; [lia|].
    destruct Hv as (l & elems & -> & Hl & Hall).
    destruct (Hn fuel ltac:(lia) h elems Hall)
      as (h1 & rs & Hrs & Htrees & Hsub).
    cbn [make_serializable_h]. rewrite Hl, Hrs.
    destruct (alloc_new h1 h1 (OList rs) ltac:(reflexivity))
      as (l' & Hl' & _ & Hlookup).
    pose proof (alloc_subseteq h1 (OList rs)) as Hsub'.
    destruct (alloc h1 (OList rs)) as [h2 r]. cbn [fst snd] in *. subst r.
    exists h2, (HRef l'). split; [reflexivity|]. split.
    + cbn [make_serializable is_tree]. exists l', rs.
      split; [reflexivity|]. split; [exact Hlookup|].
      eapply all2_is_tree_weaken; eassumption.
    + transitivity h1; assumption.
  - exists 1%nat. intros [|fuel] Hfuel h v Hv; [lia|].
    destruct Hv as (l & -> & Hall). exists h, (HTuple l).
    split; [reflexivity|]. split; [|reflexivity].
    cbn [make_serializable is_tree]. exists l. split; [reflexivity|exact Hall].
  - destruct (computes_dict pitems IH) as (n & Hn).
    exists (S n). intros [|fuel] Hfuel h v Hv; [lia|].
    destruct Hv as (l & items & -> & Hl & Hall).
    cbn [make_serializable_h make_serializable]. rewrite Hl.
    apply Hn; [lia|exact Hall].
  - destruct (computes_dict pitems IH) as (n & Hn).
    exists (S n). intros [|fuel] Hfuel h v Hv; [lia|].
    destruct Hv as (l & items & -> & Hl & Hall).
    cbn [make_serializable_h make_serializable]. rewrite Hl.
    apply Hn; [lia|exact Hall].
Qed.

Lemma make_serializable_h_rebuilds fuel h l h' r :
  make_serializable_h fuel h (HRef l) = Some (h', r) ->
  exists l', r = HRef l' /\ h !! l' = None.
Proof.
  destruct fuel as [|fuel]; [discriminate|]. cbn [make_serializable_h].
  destruct (h !! l) as [[elems|items|items]|]; [| | |discriminate].
  - destruct (comprehension_h (make_serializable_h fuel) h elems)
      as [[h1 elems']|] eqn:Hc; [|discriminate].
    intros H.
    destruct (alloc_new h h1 (OList elems')) as (l' & Hl' & Hnone & _).
    { eapply comprehension_h_grows; [apply make_serializable_h_grows|exact Hc]. }
    exists l'. split; [|exact Hnone]. rewrite <- Hl'.
    injection H as _ <-. reflexivity.
  - unfold serializable_dict_h.
    destruct (items_h (make_serializable_h fuel) h items)
      as [[h1 items']|] eqn:Hc; [|discriminate].
    intros H.
    destruct (alloc_new h h1 (ODict (dict_of_items items')))
      as (l' & Hl' & Hnone & _).
    { eapply items_h_grows; [apply make_serializable_h_grows|exact Hc]. }
    exists l'. split; [|exact Hnone]. rewrite <- Hl'.
    injection H as _ <-. reflexivity.
  - unfold serializable_dict_h.
    destruct (items_h (make_serializable_h fuel) h items)
      as [[h1 items']|] eqn:Hc; [|discriminate].
    intros H.
    destruct (alloc_new h h1 (ODict (dict_of_items items')))
      as (l' & Hl' & Hnone & _).
    { eapply items_h_grows; [apply make_serializable_h_grows|exact Hc]. }
    exists l'. split; [|exact Hnone]. rewrite <- Hl'.
    injection H as _ <-. reflexivity.
Qed.

(** C8. [make_serializable] applied twice is [make_serializable] applied
    once, on every value and so on the normalised ones.  A dictionary and an
    [AttributeDict] are rebuilt as a plain dictionary, a list as a list of
    the normalised elements, a [HexBytes], the byte string of the library, is
    rendered as its hexadecimal text, and every other value is returned as it
    is.  On the store, where its argument could be changed, the function
    changes no object that exists: every object is after the call what it was
    before, the dictionary or list returned is a new object, and for an
    argument that is a tree the call returns the normalised tree. *)
Theorem make_serializable_idempotent_and_leaves_input_unchanged :
  (forall data : pyval,
     make_serializable (make_serializable data) = make_serializable data)
  /\ (forall items,
        make_serializable (PDict items) = serializable_dict items
        /\ make_serializable (PAttributeDict items) = serializable_dict items
        /\ serializable_dict items
           = PDict (dict_of_items
                      (map (fun kv => (make_serializable_key kv.1,
                                       make_serializable kv.2)) items)))
  /\ (forall bs,
        make_serializable (PHexBytes bs) = PStr ("0x" +:+ bytes_hex bs))
  /\ (forall l, make_serializable (PList l) = PList (map make_serializable l))
  /\ (forall data,
        match data with
        | PDict _ | PAttributeDict _ | PHexBytes _ | PList _ => True
        | _ => make_serializable data = data
        end)
  /\ (forall fuel h v h' r,
        make_serializable_h fuel h v = Some (h', r) ->
        (forall l o, h !! l = Some o -> h' !! l = Some o)
        /\ (forall l, v = HRef l -> exists l', r = HRef l' /\ h !! l' = None))
  /\ (forall p h v,
        is_tree h p v ->
        exists fuel h' r,
          make_serializable_h fuel h v = Some (h', r)
          /\ is_tree h' (make_serializable p) r
          /\ forall q w, is_tree h q w -> is_tree h' q w).
Proof.
  split; [exact make_serializable_idempotent|].
  split; [intros items; repeat split|].
  split; [reflexivity|]. split; [reflexivity|].
  split; [intros []; try exact I; reflexivity|].
  split.
  - intros fuel h v h' r Hrun. split.
    + intros l o Hl. eapply lookup_weaken; [exact Hl|].
      eapply make_serializable_h_grows; exact Hrun.
    + intros l ->. eapply make_serializable_h_rebuilds; exact Hrun.
  - intros p h v Htree.
    destruct (make_serializable_h_computes p) as (n & Hn).
    destruct (Hn n ltac:(lia) h v Htree) as (h' & r & Hrun & Hres & Hsub).
    exists n, h', r. split; [exact Hrun|]. split; [exact Hres|].
    intros q w. apply is_tree_weaken, Hsub.
Qed.

(** The witness of C8: the receipt of the small store is normalised in
    three levels of calls; the two objects it is made of are unchanged and
    the result is the normalised tree in two new objects. *)
Lemma make_serializable_idempotent_and_leaves_input_unchanged_witness :
  is_tree example_store example_tree (HRef 1%positive)
  /\ exists h' r,
       make_serializable_h 3 example_store (HRef 1%positive) = Some (h', r)
       /\ (forall l o, example_store !! l = Some o -> h' !! l = Some o)
       /\ (exists l', r = HRef l' /\ example_store !! l' = None)
       /\ exists fuel h'' r',
            make_serializable_h fuel example_store (HRef 1%positive)
            = Some (h'', r')
            /\ is_tree h'' (make_serializable example_tree) r'.
Proof.
  assert (Htree : is_tree example_store example_tree (HRef 1%positive)).
  { cbn [is_tree example_tree]. exists 1%positive. eexists.
    split; [reflexivity|]. split; [vm_compute; reflexivity|].
    cbn [all2 fst snd is_tree]. repeat split.
    exists 2%positive. eexists.
    split; [reflexivity|]. split; [vm_compute; reflexivity|].
    cbn [all2 is_tree]. repeat split. }
  split; [exact Htree|].
  destruct make_serializable_idempotent_and_leaves_input_unchanged
    as (_ & _ & _ & _ & _ & Hstore & Hcomputes).
  destruct (make_serializable_h 3 example_store (HRef 1%positive))
    as [[h' r]|] eqn:Hrun; [|vm_compute in Hrun; discriminate].
  exists h', r. split; [reflexivity|].
  destruct (Hstore 3%nat example_store (HRef 1%positive) h' r Hrun)
    as [Hkeep Hnew].
  split; [exact Hkeep|]. split; [apply (Hnew 1%positive); reflexivity|].
  destruct (Hcomputes example_tree example_store (HRef 1%positive) Htree)
    as (fuel & h'' & r' & Hrun' & Hres & _).
  exists fuel, h'', r'. split; assumption.
Defined.

(** * Further properties *)

(** ** The walker when the chain is cut, endless, or its receipts are lost *)

Section WalkerEdges.

Variable self : Eth.t.

Lemma served_cons_inv b p rest :
  served (Eth.w3 self) (b :: p :: rest) = true ->
  parentHash b <> genesis_parent
  /\ get_block (Eth.w3 self) (parentHash b) = Ok p
  /\ served (Eth.w3 self) (p :: rest) = true.
Proof.
  cbn [served]. intros H.
  apply andb_prop in H as [H Hl]. apply andb_prop in H as [Hn Hg].
  split; [|split]; [| |exact Hl].
  - apply negb_true_iff, bool_decide_eq_false in Hn; exact Hn.
  - destruct (get_block (Eth.w3 self) (parentHash b)); [|discriminate].
    apply bool_decide_eq_true in Hg; congruence.
Qed.

Lemma served_feeds_prefix bs : forall b,
  served (Eth.w3 self) (b :: bs) = true -> feeds_prefix self (Eth.At b) bs.
Proof.
  induction bs as [|p bs IH]; intros b Hs; [exact I|].
  apply served_cons_inv in Hs as (Hn & Hg & Hs).
  split; [|apply IH; exact Hs].
  cbn [Eth.walk_blocks]. rewrite bool_decide_eq_false_2 by exact Hn.
  rewrite Hg. reflexivity.
Qed.

Lemma is_chain_prefix_feeds bs :
  is_chain_prefix (Eth.w3 self) bs = true ->
  bs <> [] /\ feeds_prefix self Eth.Fresh bs.
Proof.
  unfold is_chain_prefix.
  destruct (get_block_latest (Eth.w3 self)) as [b|] eqn:Hlatest; [|discriminate].
  destruct bs as [|b0 rest]; [discriminate|].
  intros H. apply andb_prop in H as [Hb Hs].
  apply bool_decide_eq_true in Hb. subst b0.
  split; [discriminate|]. split; [|apply served_feeds_prefix; exact Hs].
  cbn [Eth.walk_blocks]. rewrite Hlatest. reflexivity.
Qed.

Lemma state_after_cons s b bs :
  state_after s (b :: bs) = state_after (Eth.At b) bs.
Proof.
  unfold state_after. destruct bs as [|p bs]; [reflexivity|].
  change (last (b :: p :: bs)) with (last (p :: bs)).
  destruct (last (p :: bs)) eqn:Hlast; [reflexivity|].
  apply last_None in Hlast. discriminate.
Qed.

Lemma feeds_prefix_snoc bs : forall s b,
  feeds_prefix self s (bs ++ [b]) ->
  feeds_prefix self s bs
  /\ Eth.walk_blocks self (state_after s bs) = Yield b (Eth.At b).
Proof.
  induction bs as [|p bs IH]; intros s b.
  - cbn. intros [H _]. split; [exact I|exact H].
  - cbn [app feeds_prefix]. intros [Hstep Hrest].
    destruct (IH _ _ Hrest) as [Hfeed Hlast].
    rewrite state_after_cons. split; [split; assumption|exact Hlast].
Qed.

Lemma drain_prefix bs : forall s fuel,
  feeds_prefix self s bs ->
  drain (Eth.walk_blocks self) (length bs + fuel) s
  = (bs ++ (drain (Eth.walk_blocks self) fuel (state_after s bs)).1,
     (drain (Eth.walk_blocks self) fuel (state_after s bs)).2).
Proof.
  induction bs as [|b bs IH]; intros s fuel Hfeed.
  - cbn [length Nat.add app]. unfold state_after. cbn [last].
    destruct (drain _ fuel s); reflexivity.
  - destruct Hfeed as [Hstep Hfeed].
    cbn [length Nat.add drain]. rewrite Hstep.
    rewrite (IH _ fuel Hfeed), state_after_cons. reflexivity.
Qed.

(** X1. A failure of the node is raised to the caller of [walk_blocks] as
    it is: when the request for the latest block fails nothing is yielded,
    and when the request for a parent fails the blocks fetched so far have
    been yielded, in order, before the error is raised. *)
Theorem walk_blocks_raises_what_the_node_raises :
  (forall (e : exn) (fuel : nat),
     get_block_latest (Eth.w3 self) = Raise e ->
     (0 < fuel)%nat ->
     drain (Eth.walk_blocks self) fuel Eth.Fresh = ([], Raised e))
  /\ (forall (bs : list Block) (b : Block) (e : exn) (fuel : nat),
        is_chain_prefix (Eth.w3 self) (bs ++ [b]) = true ->
        parentHash b <> genesis_parent ->
        get_block (Eth.w3 self) (parentHash b) = Raise e ->
        (length bs + 1 < fuel)%nat ->
        drain (Eth.walk_blocks self) fuel Eth.Fresh
        = (bs ++ [b], Raised e)).
Proof.
  split.
  - intros e [|fuel] Hlatest Hfuel; [lia|].
    cbn [drain Eth.walk_blocks]. rewrite Hlatest. reflexivity.
  - intros bs b e fuel Hprefix Hparent Hfetch Hfuel.
    destruct (is_chain_prefix_feeds _ Hprefix) as [_ Hfeed].
    replace fuel with (length (bs ++ [b]) + (fuel - length (bs ++ [b])))%nat
      by (rewrite length_app; simpl; lia).
    rewrite (drain_prefix _ _ _ Hfeed).
    assert (Hstate : state_after Eth.Fresh (bs ++ [b]) = Eth.At b).
    { unfold state_after. rewrite last_snoc. reflexivity. }
    rewrite Hstate.
    destruct (fuel - length (bs ++ [b]))%nat as [|fuel'] eqn:Hleft;
      [rewrite length_app in Hleft; simpl in Hleft; lia|].
    cbn [drain Eth.walk_blocks].
    rewrite bool_decide_eq_false_2 by exact Hparent.
    rewrite Hfetch. cbn [fst snd]. rewrite app_nil_r. reflexivity.
Qed.

Lemma drain_endless (fuel : nat) : forall b,
  (forall h, exists p,
      get_block (Eth.w3 self) h = Ok p /\ parentHash p <> genesis_parent) ->
  parentHash b <> genesis_parent ->
  exists bs, drain (Eth.walk_blocks self) fuel (Eth.At b) = (bs, Pending)
             /\ length bs = fuel.
Proof.
  induction fuel as [|fuel IH]; intros b Hall Hb.
  - exists []. split; reflexivity.
  - destruct (Hall (parentHash b)) as (p & Hp & Hpp).
    destruct (IH p Hall Hpp) as (bs & Hbs & Hlen).
    exists (p :: bs). cbn [drain Eth.walk_blocks].
    rewrite bool_decide_eq_false_2 by exact Hb. rewrite Hp, Hbs.
    split; [reflexivity|]. simpl. rewrite Hlen. reflexivity.
Qed.

(** X2. The walk ends only at a block whose parent hash is the all-zero
    one.  On a node that answers every request with a block that has another
    parent hash, [walk_blocks] yields a block at each of any number of
    requests and never stops. *)
Theorem walk_blocks_without_genesis_never_stops :
  forall (b0 : Block),
    get_block_latest (Eth.w3 self) = Ok b0 ->
    parentHash b0 <> genesis_parent ->
    (forall h, exists p,
        get_block (Eth.w3 self) h = Ok p /\ parentHash p <> genesis_parent) ->
    forall fuel : nat,
      exists bs, drain (Eth.walk_blocks self) fuel Eth.Fresh = (bs, Pending)
                 /\ length bs = fuel.
Proof.
  intros b0 Hlatest Hb0 Hall [|fuel].
  - exists []. split; reflexivity.
  - destruct (drain_endless fuel b0 Hall Hb0) as (bs & Hbs & Hlen).
    exists (b0 :: bs). cbn [drain Eth.walk_blocks]. rewrite Hlatest, Hbs.
    split; [reflexivity|]. simpl. rewrite Hlen. reflexivity.
Qed.

Lemma receipts_of_snoc bs b rs :
  receipts_of (Eth.w3 self) (bs ++ [b]) = Ok rs ->
  exists rinit txs, rs = rinit ++ [txs]
    /\ receipts_of (Eth.w3 self) bs = Ok rinit
    /\ comprehension (wait_for_transaction_receipt (Eth.w3 self))
                     (transactions b) = Ok txs.
Proof.
  revert rs. induction bs as [|p bs IH]; intros rs H.
  - destruct (receipts_of_cons self _ _ _ H) as (txs & rs' & -> & Htxs & Hrs').
    injection Hrs' as <-. exists [], txs. repeat split. exact Htxs.
  - cbn [app] in H.
    destruct (receipts_of_cons self _ _ _ H) as (txp & rs' & -> & Htxp & Hrs').
    destruct (IH _ Hrs') as (rinit & txs & -> & Hinit & Htxs).
    exists (txp :: rinit), txs. split; [reflexivity|]. split; [|exact Htxs].
    unfold receipts_of in *. cbn [comprehension]. rewrite Htxp. cbn [bind].
    rewrite Hinit. reflexivity.
Qed.

(** The loop over blocks that do not reach the limit goes on after them. *)
Lemma walk_transactions_from_prefix limit bs : forall rs s accum fuel,
  feeds_prefix self s bs ->
  receipts_of (Eth.w3 self) bs = Ok rs ->
  (forall j : nat, (1 <= j <= length rs)%nat ->
     Eth.limit_reached limit (accum + count_at rs j) = false) ->
  Eth.walk_transactions_from self limit (length bs + fuel) accum s
  = (concat rs
       ++ (Eth.walk_transactions_from self limit fuel
             (accum + count_at rs (length rs)) (state_after s bs)).1,
     (Eth.walk_transactions_from self limit fuel
        (accum + count_at rs (length rs)) (state_after s bs)).2).
Proof.
  induction bs as [|b bs IH]; intros rs s accum fuel Hfeed Hrs Hbelow.
  - simpl in Hrs. injection Hrs as <-.
    cbn [length Nat.add concat app]. rewrite count_at_0, Z.add_0_r.
    unfold state_after. cbn [last].
    destruct (Eth.walk_transactions_from self limit fuel accum s); reflexivity.
  - destruct Hfeed as [Hstep Hfeed].
    destruct (receipts_of_cons self _ _ _ Hrs) as (txs & rs' & -> & Htxs & Hrs').
    cbn [length Nat.add Eth.walk_transactions_from]. rewrite Hstep, Htxs.
    pose proof (Hbelow 1%nat ltac:(simpl; lia)) as H1.
    rewrite count_at_cons, count_at_0, Z.add_0_r in H1. rewrite H1.
    rewrite (IH rs' (Eth.At b) (accum + Z.of_nat (length txs)) fuel Hfeed Hrs').
    + rewrite state_after_cons, count_at_cons.
      rewrite <- Z.add_assoc. cbn [concat]. rewrite <- app_assoc.
      reflexivity.
    + intros j Hj. specialize (Hbelow (S j) ltac:(simpl; lia)).
      rewrite count_at_cons in Hbelow. rewrite <- Z.add_assoc. exact Hbelow.
Qed.

Lemma count_at_app_le (rs rs' : list (list Receipt)) (j : nat) :
  (j <= length rs)%nat -> count_at (rs ++ rs') j = count_at rs j.
Proof. intros H. unfold count_at. rewrite take_app_le by exact H. reflexivity. Qed.

Lemma count_at_snoc (rs : list (list Receipt)) (txs : list Receipt) :
  count_at (rs ++ [txs]) (length (rs ++ [txs]))
  = count_at rs (length rs) + Z.of_nat (length txs).
Proof.
  unfold count_at. rewrite !firstn_all, concat_app, length_app.
  simpl. rewrite app_nil_r. lia.
Qed.

(** X3. [walk_transactions] asks for no block beyond the one at which the
    limit is reached.  For a limit other than 0, when the node serves the
    blocks [bs] and their receipts, the count reaches the limit at the last
    of them and at none before, the walk yields their receipts and ends,
    whatever the node would answer for the parent of the last block (also
    when that request would fail).  A negative limit is reached at the first
    block. *)
Theorem walk_transactions_fetches_nothing_after_the_limit :
  forall (bs : list Block) (rs : list (list Receipt)) (limit : Z)
         (fuel : nat),
    is_chain_prefix (Eth.w3 self) bs = true ->
    receipts_of (Eth.w3 self) bs = Ok rs ->
    limit <> 0 ->
    (forall j : nat, (1 <= j < length rs)%nat -> count_at rs j < limit) ->
    limit <= count_at rs (length rs) ->
    (length bs <= fuel)%nat ->
    Eth.walk_transactions self fuel (Some limit) = (concat rs, Exhausted).
Proof.
  intros bs rs limit fuel Hprefix Hrs Hlimit Hbefore Hreach Hfuel.
  destruct (is_chain_prefix_feeds _ Hprefix) as [Hne Hfeed].
  destruct bs as [|b0 bs0] using rev_ind; [congruence|]. clear IHbs0.
  destruct (receipts_of_snoc _ _ _ Hrs) as (rinit & txs & -> & Hinit & Htxs).
  destruct (feeds_prefix_snoc _ _ _ Hfeed) as [Hfeed0 Hlast].
  assert (Hlen : length rinit = length bs0).
  { clear -Hinit. revert rinit Hinit.
    induction bs0 as [|p bs0 IH]; intros rinit Hinit.
    - injection Hinit as <-. reflexivity.
    - destruct (receipts_of_cons self _ _ _ Hinit) as (t & r & -> & _ & Hr).
      simpl. f_equal. apply IH, Hr. }
  unfold Eth.walk_transactions.
  replace fuel with (length bs0 + (fuel - length bs0))%nat
    by (rewrite length_app in Hfuel; simpl in Hfuel; lia).
  rewrite (walk_transactions_from_prefix (Some limit) bs0 rinit Eth.Fresh 0
             _ Hfeed0 Hinit).
  - destruct (fuel - length bs0)%nat as [|fuel'] eqn:Hleft;
      [rewrite length_app in Hfuel; simpl in Hfuel; lia|].
    cbn [Eth.walk_transactions_from]. rewrite Hlast, Htxs.
    rewrite count_at_snoc in Hreach.
    assert (Hyes : Eth.limit_reached (Some limit)
                     (0 + count_at rinit (length rinit)
                      + Z.of_nat (length txs)) = true).
    { cbn [Eth.limit_reached]. apply andb_true_intro. split.
      - apply negb_true_iff, Z.eqb_neq. exact Hlimit.
      - apply Z.leb_le. lia. }
    rewrite Hyes. cbn [fst snd]. rewrite concat_app. simpl.
    rewrite app_nil_r. reflexivity.
  - intros j Hj. cbn [Eth.limit_reached].
    specialize (Hbefore j).
    rewrite length_app, count_at_app_le in Hbefore by lia.
    simpl in Hbefore. apply andb_false_iff. right. apply Z.leb_gt. lia.
Qed.

(** X4. When the node fails to give a receipt, [walk_transactions] raises
    that failure after the receipts of the blocks before, and yields no
    receipt of the block in which it failed: the receipts of a block are all
    fetched before the first of them is yielded. *)
Theorem walk_transactions_raises_before_yielding_the_failing_block :
  forall (bs : list Block) (b : Block) (rs : list (list Receipt))
         (limit : option Z) (e : exn) (fuel : nat),
    is_chain_prefix (Eth.w3 self) (bs ++ [b]) = true ->
    receipts_of (Eth.w3 self) bs = Ok rs ->
    comprehension (wait_for_transaction_receipt (Eth.w3 self))
                  (transactions b) = Raise e ->
    (forall j : nat, (1 <= j <= length rs)%nat ->
       Eth.limit_reached limit (count_at rs j) = false) ->
    (length bs < fuel)%nat ->
    Eth.walk_transactions self fuel limit = (concat rs, Raised e).
Proof.
  intros bs b rs limit e fuel Hprefix Hrs Hfail Hbelow Hfuel.
  destruct (is_chain_prefix_feeds _ Hprefix) as [_ Hfeed].
  destruct (feeds_prefix_snoc _ _ _ Hfeed) as [Hfeed0 Hlast].
  unfold Eth.walk_transactions.
  replace fuel with (length bs + (fuel - length bs))%nat by lia.
  rewrite (walk_transactions_from_prefix limit bs rs Eth.Fresh 0 _ Hfeed0 Hrs).
  - destruct (fuel - length bs)%nat as [|fuel'] eqn:Hleft; [lia|].
    cbn [Eth.walk_transactions_from]. rewrite Hlast, Hfail.
    cbn [fst snd]. rewrite app_nil_r. reflexivity.
  - intros j Hj. rewrite Z.add_0_l. apply Hbelow, Hj.
Qed.

End WalkerEdges.

(** The witness of X1: the node that serves its head alone. *)
Lemma walk_blocks_raises_what_the_node_raises_witness :
  drain (Eth.walk_blocks (Eth.mk example_lonely_node "0xAA")) 3 Eth.Fresh
  = ([] ++ [example_block2], Raised (RpcError "block not found")).
Proof.
  apply (walk_blocks_raises_what_the_node_raises
           (Eth.mk example_lonely_node "0xAA")).
  - vm_compute; reflexivity.
  - vm_compute; discriminate.
  - reflexivity.
  - simpl; lia.
Defined.

(** The witness of X2: the node that serves the same block under every
    hash, asked five times. *)
Lemma walk_blocks_without_genesis_never_stops_witness :
  exists bs,
    drain (Eth.walk_blocks (Eth.mk example_endless_node "0xAA")) 5 Eth.Fresh
    = (bs, Pending)
    /\ length bs = 5%nat.
Proof.
  apply (walk_blocks_without_genesis_never_stops
           (Eth.mk example_endless_node "0xAA") example_block2).
  - reflexivity.
  - vm_compute; discriminate.
  - intros h. exists example_block2. split; [reflexivity|].
    vm_compute; discriminate.
Defined.

(** The witness of X3: the head has one receipt, the limit is 1, and no
    other block can be fetched. *)
Lemma walk_transactions_fetches_nothing_after_the_limit_witness :
  Eth.walk_transactions (Eth.mk example_lonely_node "0xAA") 1 (Some 1)
  = (concat [[example_receipt3]], Exhausted).
Proof.
  apply (walk_transactions_fetches_nothing_after_the_limit
           (Eth.mk example_lonely_node "0xAA") [example_block2]
           [[example_receipt3]] 1 1).
  - vm_compute; reflexivity.
  - vm_compute; reflexivity.
  - lia.
  - intros j Hj. simpl in Hj. lia.
  - vm_compute; discriminate.
  - simpl; lia.
Defined.

(** The witness of X4: the receipt of the second transaction of the second
    block is lost, so the receipt of the head is yielded and neither receipt
    of the second block. *)
Lemma walk_transactions_raises_before_yielding_the_failing_block_witness :
  Eth.walk_transactions (Eth.mk example_lossy_node "0xAA") 3 None
  = (concat [[example_receipt3]], Raised (RpcError "timeout")).
Proof.
  apply (walk_transactions_raises_before_yielding_the_failing_block
           (Eth.mk example_lossy_node "0xAA") [example_block2] example_block1
           [[example_receipt3]] None (RpcError "timeout") 3).
  - vm_compute; reflexivity.
  - vm_compute; reflexivity.
  - vm_compute; reflexivity.
  - intros j Hj. reflexivity.
  - simpl; lia.
Defined.

(** ** The contracts of a history *)

Lemma or_myhistory_truthy (self : Eth.t) (fuel : nat)
    (history : option Eth.iterable) :
  Eth.iterable_truthy (Eth.or_myhistory self fuel history) = true.
Proof.
  destruct history as [[run|[|tx txs]]|]; reflexivity.
Qed.

Lemma take_contracts_unfold (self : Eth.t) (fuel : nat)
    (history : option Eth.iterable) :
  Eth.take_contracts self fuel history
  = (map contractAddress
       (filter (fun tx => Eth.truthy (contractAddress tx) = true)
               (fst (Eth.iterate (Eth.or_myhistory self fuel history)))),
     snd (Eth.iterate (Eth.or_myhistory self fuel history))).
Proof.
  unfold Eth.take_contracts, Eth.filter_contract.
  change (Eth.or_myhistory self fuel
            (Some (Eth.or_myhistory self fuel history)))
    with (if Eth.iterable_truthy (Eth.or_myhistory self fuel history)
          then Eth.or_myhistory self fuel history
          else Eth.Generator (Eth.myhistory self fuel None)).
  rewrite or_myhistory_truthy.
  destruct (Eth.iterate (Eth.or_myhistory self fuel history)) as [txs e].
  reflexivity.
Qed.

(** X5. Every value that [take_contracts] yields is a text that is not
    empty, never [None], whatever the history passed and whatever its
    receipts are.  Of a generator, and of a list that is not empty, it
    yields at most as many values as there are receipts, and it ends as the
    generator ends, so a failure of the walk is raised after the contracts
    found before it.  Without a history, and with an empty list as well, it
    takes the history of the operator's own address. *)
Theorem take_contracts_yields_only_addresses :
  forall (self : Eth.t) (fuel : nat),
    (forall history : option Eth.iterable,
       Forall (fun a => exists s : string, a = Some s /\ s <> "")
              (fst (Eth.take_contracts self fuel history)))
    /\ (forall run : list Receipt * ending,
          (length (fst (Eth.take_contracts self fuel
                          (Some (Eth.Generator run))))
           <= length (fst run))%nat
          /\ snd (Eth.take_contracts self fuel (Some (Eth.Generator run)))
             = snd run)
    /\ (forall (tx : Receipt) (txs : list Receipt),
          (length (fst (Eth.take_contracts self fuel
                          (Some (Eth.PyList (tx :: txs)))))
           <= length (tx :: txs))%nat
          /\ snd (Eth.take_contracts self fuel
                    (Some (Eth.PyList (tx :: txs))))
             = Exhausted)
    /\ Eth.take_contracts self fuel (Some (Eth.PyList []))
       = Eth.take_contracts self fuel None
    /\ Eth.take_contracts self fuel None
       = Eth.take_contracts self fuel
           (Some (Eth.Generator
                    (Eth.history self fuel (Eth.myaddress self) None))).
Proof.
  intros self fuel.
  split; [|split; [|split; [|split]]].
  - intros history. rewrite take_contracts_unfold. cbn [fst].
    apply Forall_forall. intros a Hin.
    apply list_elem_of_fmap in Hin as (tx & -> & Hin).
    apply list_elem_of_filter in Hin as [Ht _].
    destruct (contractAddress tx) as [s|]; [|discriminate].
    exists s. split; [reflexivity|].
    cbn [Eth.truthy] in Ht. apply negb_true_iff, String.eqb_neq in Ht.
    exact Ht.
  - intros run. rewrite take_contracts_unfold.
    cbn [Eth.or_myhistory Eth.iterable_truthy Eth.iterate fst snd].
    split; [|reflexivity]. rewrite length_map. apply length_filter.
  - intros tx txs. rewrite take_contracts_unfold.
    cbn [Eth.or_myhistory Eth.iterable_truthy Eth.iterate fst snd].
    split; [|reflexivity]. rewrite length_map. apply length_filter.
  - rewrite !take_contracts_unfold. reflexivity.
  - rewrite !take_contracts_unfold. reflexivity.
Qed.

(** ** Tokens by position and by name *)

Section Tokens.

Variable json_loads : string -> result pyval.

Lemma getitem_nth {A : Type} (l : list A) (i : Z) :
  0 <= i -> getitem l i = match nth_error l (Z.to_nat i) with
                          | Some x => Ok x
                          | None => Raise IndexError
                          end.
Proof.
  intros Hi. unfold getitem.
  rewrite (proj2 (Z.leb_le 0 i) Hi).
  rewrite (proj2 (Z.ltb_ge i 0) Hi). reflexivity.
Qed.

Lemma convert_positional cm number value :
  count_char "="%char value = 0%nat ->
  ContractCallerArgs.convert json_loads cm number value
  = (number + 1,
     kv <- ContractCallerArgs.coerce json_loads cm (number + 1) "" value;
     Ok (ContractCallerArgs.convert_result kv)).
Proof.
  intros Hc. unfold ContractCallerArgs.convert.
  rewrite contains_count, Hc. reflexivity.
Qed.

(** X6. A token without "=" is coerced by the input at its position among
    all the tokens, the counter having counted the named tokens too: at the
    counter [number], counted from 0, it takes the rule and the name of
    [inputs[number]], and it is returned as a keyword argument under that
    name, or alone when the input has no name.  A token beyond the last
    input raises [IndexError]. *)
Theorem convert_positional_token_takes_the_input_at_its_position :
  forall cm ins number value,
    ContractMethod.inputs cm = Ok ins ->
    count_char "="%char value = 0%nat ->
    0 <= number ->
    (forall inp,
       nth_error ins (Z.to_nat number) = Some inp ->
       ContractCallerArgs.convert json_loads cm number value
       = (number + 1,
          v <- ContractCallerArgs.coerce_value json_loads inp value;
          Ok (if negb (String.eqb (input_name inp) "")
              then PDict [(KStr (input_name inp), v)]
              else v)))
    /\ (Z.of_nat (length ins) <= number ->
        ContractCallerArgs.convert json_loads cm number value
        = (number + 1, Raise IndexError)).
Proof.
  intros cm ins number value Hins Hc Hnumber.
  rewrite (convert_positional _ _ _ Hc).
  unfold ContractCallerArgs.coerce. rewrite Hins. cbn [bind].
  unfold ContractCallerArgs.coerce_input.
  change (negb ("" =? "")%string) with false. cbv iota.
  replace (number + 1 - 1) with number by lia.
  rewrite getitem_nth by exact Hnumber.
  split.
  - intros inp ->. cbn [bind].
    destruct (ContractCallerArgs.coerce_value json_loads inp value);
      reflexivity.
  - intros Hout.
    rewrite (proj2 (nth_error_None ins (Z.to_nat number))) by lia.
    reflexivity.
Qed.

Lemma split_two c k v :
  count_char c k = 0%nat -> count_char c v = 0%nat ->
  split c (k +:+ String c v) = [k; v]
  /\ contains c (k +:+ String c v) = true.
Proof.
  intros Hk Hv. induction k as [|d k IH].
  - change ("" +:+ String c v) with (String c v). cbn [split contains].
    rewrite Ascii.eqb_refl. rewrite split_none by exact Hv.
    split; reflexivity.
  - cbn [count_char] in Hk.
    destruct (Ascii.eqb d c) eqn:Hd; [discriminate|].
    destruct (IH Hk) as [Hs Hin].
    change (String d k +:+ String c v) with (String d (k +:+ String c v)).
    cbn [split contains]. rewrite Hd, Hs, Hin. split; reflexivity.
Qed.

Lemma filter_first_named (key : string) (pre post : list Input) (inp : Input) :
  input_name inp = key ->
  Forall (fun i => input_name i <> key) pre ->
  getitem (filter (fun input => input_name input = key) (pre ++ inp :: post)) 0
  = Ok inp.
Proof.
  intros Hname Hpre. induction Hpre as [|i pre Hi Hpre IH].
  - cbn [app]. rewrite filter_cons, decide_True by exact Hname. reflexivity.
  - cbn [app]. rewrite filter_cons, decide_False by exact Hi. exact IH.
Qed.

Lemma filter_none_named (key : string) (ins : list Input) :
  Forall (fun i => input_name i <> key) ins ->
  filter (fun input => input_name input = key) ins = [].
Proof.
  induction 1 as [|i ins Hi Hins IH]; [reflexivity|].
  rewrite filter_cons, decide_False by exact Hi. exact IH.
Qed.

(** X7. A token [key=val] with a key that is not empty is coerced by the
    first input that bears this name, wherever the token stands, and is
    returned as the keyword argument [key]; when no input bears the name it
    raises [IndexError].  A token that starts with "=" has an empty key and
    is taken by position like the text after the "=". *)
Theorem convert_named_token_takes_the_first_input_of_that_name :
  forall cm ins number key val,
    ContractMethod.inputs cm = Ok ins ->
    count_char "="%char key = 0%nat ->
    count_char "="%char val = 0%nat ->
    (key <> "" ->
     (forall pre inp post,
        ins = pre ++ inp :: post ->
        input_name inp = key ->
        Forall (fun i => input_name i <> key) pre ->
        ContractCallerArgs.convert json_loads cm number (key +:+ "=" +:+ val)
        = (number + 1,
           v <- ContractCallerArgs.coerce_value json_loads inp val;
           Ok (PDict [(KStr key, v)])))
     /\ (Forall (fun i => input_name i <> key) ins ->
         ContractCallerArgs.convert json_loads cm number
           (key +:+ "=" +:+ val)
         = (number + 1, Raise IndexError)))
    /\ ContractCallerArgs.convert json_loads cm number ("=" +:+ val)
       = ContractCallerArgs.convert json_loads cm number val.
Proof.
  intros cm ins number key val Hins Hk Hv.
  assert (Hconv : forall k, count_char "="%char k = 0%nat ->
    ContractCallerArgs.convert json_loads cm number (k +:+ "=" +:+ val)
    = (number + 1,
       kv <- ContractCallerArgs.coerce json_loads cm (number + 1) k val;
       Ok (ContractCallerArgs.convert_result kv))).
  { intros k Hk0. unfold ContractCallerArgs.convert.
    destruct (split_two "="%char k val Hk0 Hv) as [Hs Hin].
    change (k +:+ "=" +:+ val) with (k +:+ String "="%char val).
    rewrite Hin, Hs. reflexivity. }
  split.
  - intros Hkey. apply String.eqb_neq in Hkey.
    rewrite (Hconv key Hk).
    unfold ContractCallerArgs.coerce. rewrite Hins. cbn [bind].
    unfold ContractCallerArgs.coerce_input, ContractCallerArgs.coerce_key,
      ContractCallerArgs.convert_result.
    rewrite Hkey. cbn [negb].
    split.
    + intros pre inp post -> Hname Hpre.
      rewrite (filter_first_named key pre post inp Hname Hpre). cbn [bind].
      destruct (ContractCallerArgs.coerce_value json_loads inp val);
        [|reflexivity].
      cbn [bind fst snd]. rewrite Hkey. reflexivity.
    + intros Hnone. rewrite (filter_none_named key ins Hnone). reflexivity.
  - rewrite (convert_positional _ _ _ Hv). exact (Hconv "" eq_refl).
Qed.

End Tokens.

(** The witness of X6: the first token of [configure], by position, and a
    sixth token, beyond its five inputs. *)
Lemma convert_positional_token_takes_the_input_at_its_position_witness :
  ContractCallerArgs.convert example_json_loads
    (ContractMethod.mk example_abi "configure" []) 0 "42"
  = (0 + 1,
     v <- ContractCallerArgs.coerce_value example_json_loads
            (mkInput "amount" "uint256") "42";
     Ok (if negb (String.eqb (input_name (mkInput "amount" "uint256")) "")
         then PDict [(KStr (input_name (mkInput "amount" "uint256")), v)]
         else v))
  /\ ContractCallerArgs.convert example_json_loads
       (ContractMethod.mk example_abi "configure" []) 5 "42"
     = (5 + 1, Raise IndexError).
Proof.
  split.
  - apply (convert_positional_token_takes_the_input_at_its_position
             example_json_loads
             (ContractMethod.mk example_abi "configure" [])
             [mkInput "amount" "uint256"; mkInput "enabled" "bool";
              mkInput "salt" "bytes32"; mkInput "ids" "uint256[]";
              mkInput "label" "string"] 0 "42");
      try reflexivity; lia.
  - apply (convert_positional_token_takes_the_input_at_its_position
             example_json_loads
             (ContractMethod.mk example_abi "configure" [])
             [mkInput "amount" "uint256"; mkInput "enabled" "bool";
              mkInput "salt" "bytes32"; mkInput "ids" "uint256[]";
              mkInput "label" "string"] 5 "42");
      try reflexivity; simpl; lia.
Defined.

(** The witness of X7: [b=7] as the first token of [store], and a name that
    [store] does not have. *)
Lemma convert_named_token_takes_the_first_input_of_that_name_witness :
  ContractCallerArgs.convert example_json_loads
    (ContractMethod.mk example_abi "store" []) 0 ("b" +:+ "=" +:+ "7")
  = (0 + 1,
     v <- ContractCallerArgs.coerce_value example_json_loads
            (mkInput "b" "uint256") "7";
     Ok (PDict [(KStr "b", v)]))
  /\ ContractCallerArgs.convert example_json_loads
       (ContractMethod.mk example_abi "store" []) 0 ("c" +:+ "=" +:+ "7")
     = (0 + 1, Raise IndexError).
Proof.
  assert (Hins : ContractMethod.inputs
                   (ContractMethod.mk example_abi "store" [])
                 = Ok [mkInput "a" "uint256"; mkInput "b" "uint256"])
    by (vm_compute; reflexivity).
  split.
  - destruct (convert_named_token_takes_the_first_input_of_that_name
                example_json_loads (ContractMethod.mk example_abi "store" [])
                [mkInput "a" "uint256"; mkInput "b" "uint256"] 0 "b" "7"
                Hins) as [Hnamed _]; [reflexivity|reflexivity|].
    destruct Hnamed as [Hfound _]; [discriminate|].
    apply (Hfound [mkInput "a" "uint256"] (mkInput "b" "uint256") []).
    + reflexivity.
    + reflexivity.
    + constructor; [discriminate|constructor].
  - destruct (convert_named_token_takes_the_first_input_of_that_name
                example_json_loads (ContractMethod.mk example_abi "store" [])
                [mkInput "a" "uint256"; mkInput "b" "uint256"] 0 "c" "7"
                Hins) as [Hnamed _]; [reflexivity|reflexivity|].
    destruct Hnamed as [_ Hnone]; [discriminate|].
    apply Hnone.
    constructor; [discriminate|].
    constructor; [discriminate|constructor].
Defined.

(** ** The keyword arguments *)

Lemma key_eqb_KStr (k : key) (n : string) :
  key_eqb k (KStr n) = true <-> k = KStr n.
Proof.
  destruct k; cbn; try (split; [discriminate|intros [=]]).
  rewrite String.eqb_eq. split; [intros ->; reflexivity|intros [= ->]; reflexivity].
Qed.

Section KeywordItems.

Context {V : Type}.

Implicit Types (d items : list (key * V)) (v : V) (n : string).

Lemma dict_get_setitem_same d n v :
  dict_get (dict_setitem d (KStr n) v) (KStr n) = Some v.
Proof.
  induction d as [|[k' v'] d IH]; cbn [dict_setitem dict_get].
  - cbn. rewrite String.eqb_refl. reflexivity.
  - destruct (key_eqb k' (KStr n)) eqn:Hk; cbn [dict_get]; rewrite Hk.
    + reflexivity.
    + exact IH.
Qed.

Lemma dict_get_setitem_other d n n' v :
  n' <> n ->
  dict_get (dict_setitem d (KStr n) v) (KStr n') = dict_get d (KStr n').
Proof.
  intros Hne. induction d as [|[k' v'] d IH]; cbn [dict_setitem dict_get].
  - cbn. apply String.eqb_neq in Hne. rewrite String.eqb_sym, Hne. reflexivity.
  - destruct (key_eqb k' (KStr n)) eqn:Hk; cbn [dict_get].
    + apply key_eqb_KStr in Hk. subst k'. cbn.
      apply String.eqb_neq in Hne. rewrite String.eqb_sym, Hne. reflexivity.
    + rewrite IH. reflexivity.
Qed.

Lemma dict_setitem_keeps_key d k v n :
  (exists v0, (KStr n, v0) ∈ d) ->
  exists v0, (KStr n, v0) ∈ dict_setitem d k v.
Proof.
  intros (v0 & Hin). induction d as [|[k' v'] d IH];
    [apply elem_of_nil in Hin; contradiction|].
  cbn [dict_setitem]. apply elem_of_cons in Hin as [[= <- <-]|Hin].
  - destruct (key_eqb (KStr n) k).
    + exists v. apply elem_of_cons. left. reflexivity.
    + exists v0. apply elem_of_cons. left. reflexivity.
  - destruct (key_eqb k' k).
    + exists v0. apply elem_of_cons. right. exact Hin.
    + destruct (IH Hin) as (v1 & H1). exists v1.
      apply elem_of_cons. right. exact H1.
Qed.

Lemma dict_setitem_has_key d n v :
  exists v0, (KStr n, v0) ∈ dict_setitem d (KStr n) v.
Proof.
  induction d as [|[k' v'] d IH]; cbn [dict_setitem].
  - exists v. apply elem_of_cons. left. reflexivity.
  - destruct (key_eqb k' (KStr n)) eqn:Hk.
    + apply key_eqb_KStr in Hk. subst k'. exists v.
      apply elem_of_cons. left. reflexivity.
    + destruct IH as (v0 & H0). exists v0. apply elem_of_cons. right. exact H0.
Qed.

Lemma dict_update_keeps_key items : forall d n,
  (exists v0, (KStr n, v0) ∈ d) ->
  exists v0, (KStr n, v0) ∈ dict_update d items.
Proof.
  induction items as [|[k v] items IH]; intros d n Hd; [exact Hd|].
  apply IH. apply dict_setitem_keeps_key. exact Hd.
Qed.

Lemma dict_update_has_key items : forall d n v,
  (KStr n, v) ∈ items ->
  exists v0, (KStr n, v0) ∈ dict_update d items.
Proof.
  induction items as [|[k v'] items IH]; intros d n v Hin;
    [apply elem_of_nil in Hin; contradiction|].
  change (dict_update d ((k, v') :: items))
    with (dict_update (dict_setitem d k v') items).
  apply elem_of_cons in Hin as [[= <- <-]|Hin].
  - apply dict_update_keeps_key. apply dict_setitem_has_key.
  - eapply IH. exact Hin.
Qed.

End KeywordItems.

Lemma kwargs_snoc abi f args (arg : pyval) :
  isinstance_dict arg = true ->
  ContractMethod._kwargs (ContractMethod.mk abi f (args ++ [arg]))
  = dict_update (ContractMethod._kwargs (ContractMethod.mk abi f args))
                (ContractMethod.dict_items arg).
Proof.
  intros Hd. unfold ContractMethod._kwargs. cbn [ContractMethod.args].
  rewrite filter_app, filter_cons, decide_True by exact Hd.
  rewrite filter_nil, fold_left_app. reflexivity.
Qed.

(** X8. When a name is given by several tokens, the value of the last one
    is the keyword argument, and the other keyword arguments are what they
    were: appending the argument [{n: v}] makes [n] map to [v] and leaves
    every other name as it was. *)
Theorem kwargs_last_token_wins :
  forall abi f args n v,
    dict_get (ContractMethod._kwargs
                (ContractMethod.mk abi f (args ++ [PDict [(KStr n, v)]])))
             (KStr n)
    = Some v
    /\ forall n', n' <> n ->
         dict_get (ContractMethod._kwargs
                     (ContractMethod.mk abi f (args ++ [PDict [(KStr n, v)]])))
                  (KStr n')
         = dict_get (ContractMethod._kwargs (ContractMethod.mk abi f args))
                    (KStr n').
Proof.
  intros abi f args n v. rewrite kwargs_snoc by reflexivity.
  cbn [ContractMethod.dict_items]. unfold dict_update. cbn [fold_left fst snd].
  split; [apply dict_get_setitem_same|].
  intros n' Hne. apply dict_get_setitem_other. exact Hne.
Qed.

Lemma given_names_of_arg abi f args n v :
  PDict [(KStr n, v)] ∈ args ->
  n ∈ ContractMethod.given_names (ContractMethod.mk abi f args).
Proof.
  intros Hin. unfold ContractMethod.given_names.
  rewrite elem_of_list_to_set, list_elem_of_omap.
  assert (Hkey : exists v0,
            (KStr n, v0)
            ∈ ContractMethod._kwargs (ContractMethod.mk abi f args)).
  { induction args as [|arg args IH] using rev_ind;
      [apply elem_of_nil in Hin; contradiction|].
    apply elem_of_app in Hin as [Hin|Hin].
    - destruct (isinstance_dict arg) eqn:Hd.
      + rewrite kwargs_snoc by exact Hd.
        apply dict_update_keeps_key, IH, Hin.
      + unfold ContractMethod._kwargs in *. cbn [ContractMethod.args] in *.
        rewrite filter_app, filter_cons, decide_False
          by (rewrite Hd; discriminate).
        rewrite filter_nil, app_nil_r. apply IH, Hin.
    - apply list_elem_of_singleton in Hin. subst arg.
      rewrite kwargs_snoc by reflexivity.
      eapply dict_update_has_key. cbn [ContractMethod.dict_items].
      apply elem_of_cons. left. reflexivity. }
  destruct Hkey as (v0 & Hv0). exists (KStr n, v0). split; [exact Hv0|reflexivity].
Qed.

Section AllByPosition.

Variable json_loads : string -> result pyval.

Lemma convert_positional_at cm ins number value :
  ContractMethod.inputs cm = Ok ins ->
  count_char "="%char value = 0%nat ->
  0 <= number ->
  ContractCallerArgs.convert json_loads cm number value
  = (number + 1,
     match nth_error ins (Z.to_nat number) with
     | Some inp =>
         v <- ContractCallerArgs.coerce_value json_loads inp value;
         Ok (ContractCallerArgs.convert_result (input_name inp, v))
     | None => Raise IndexError
     end).
Proof.
  intros Hins Hc Hnumber.
  rewrite (convert_positional json_loads _ _ _ Hc).
  unfold ContractCallerArgs.coerce. rewrite Hins. cbn [bind].
  unfold ContractCallerArgs.coerce_input.
  change (negb ("" =? "")%string) with false. cbv iota.
  replace (number + 1 - 1) with number by lia.
  rewrite getitem_nth by exact Hnumber.
  destruct (nth_error ins (Z.to_nat number)) as [inp|]; [|reflexivity].
  cbn [bind].
  destruct (ContractCallerArgs.coerce_value json_loads inp value);
    reflexivity.
Qed.

Lemma convert_all_positional cm ins tokens : forall number n args,
  ContractMethod.inputs cm = Ok ins ->
  0 <= number ->
  Forall (fun t => count_char "="%char t = 0%nat) tokens ->
  ContractCallerArgs.convert_all json_loads cm number tokens = (n, Ok args) ->
  n = number + Z.of_nat (length tokens)
  /\ forall (i : nat) (inp : Input),
       (i < length tokens)%nat ->
       nth_error ins (Z.to_nat number + i) = Some inp ->
       exists v,
         nth_error args i
         = Some (ContractCallerArgs.convert_result (input_name inp, v)).
Proof.
  induction tokens as [|t tokens IH]; intros number n args Hins Hnumber Hpos Hrun.
  - cbn in Hrun. injection Hrun as <- <-. split; [simpl; lia|].
    intros i inp Hi. simpl in Hi. lia.
  - inversion Hpos as [|? ? Ht Hrest]; subst.
    cbn [ContractCallerArgs.convert_all] in Hrun.
    rewrite (convert_positional_at _ _ _ _ Hins Ht Hnumber) in Hrun.
    destruct (nth_error ins (Z.to_nat number)) as [inp0|] eqn:Hinp0;
      [|discriminate].
    destruct (ContractCallerArgs.coerce_value json_loads inp0 t) as [v0|];
      [|discriminate].
    cbn [bind] in Hrun.
    destruct (ContractCallerArgs.convert_all json_loads cm (number + 1) tokens)
      as [n' [vs|]] eqn:Hrec; [|discriminate].
    injection Hrun as <- <-.
    destruct (IH (number + 1) n' vs Hins ltac:(lia) Hrest Hrec) as [Hn Hargs].
    split; [simpl length; lia|].
    intros [|i] inp Hi Hnth.
    + rewrite Nat.add_0_r, Hinp0 in Hnth. injection Hnth as <-.
      exists v0. reflexivity.
    + cbn [nth_error]. apply Hargs; [simpl in Hi; lia|].
      replace (Z.to_nat (number + 1) + i)%nat with (Z.to_nat number + S i)%nat
        by lia.
      exact Hnth.
Qed.

(** X9. When every input of the function is given by position, one token
    for each input in the order of the declaration and none of them with an
    "=", and the tokens convert, then no name is missing: the inputs that
    bear a name have become keyword arguments under their names, and the
    pre-flight check passes without a log. *)
Theorem all_inputs_by_position_pass_the_check :
  forall cm0 ins tokens n args,
    ContractMethod.inputs cm0 = Ok ins ->
    Forall (fun t => count_char "="%char t = 0%nat) tokens ->
    length tokens = length ins ->
    ContractCallerArgs.convert_all json_loads cm0 0 tokens = (n, Ok args) ->
    let cm :=
      ContractMethod.mk (ContractMethod.eth_abi cm0)
                        (ContractMethod.function cm0) args in
    n = Z.of_nat (length ins)
    /\ ContractMethod.missing_names cm = Ok ∅
    /\ ContractMethod.check cm = ([], Ok true).
Proof.
  intros cm0 ins tokens n args Hins Hpos Hlen Hrun cm.
  destruct (convert_all_positional cm0 ins tokens 0 n args Hins ltac:(lia)
              Hpos Hrun) as [Hn Hargs].
  assert (Hins' : ContractMethod.inputs cm = Ok ins) by exact Hins.
  assert (Hmissing : ContractMethod.missing_names cm = Ok ∅).
  { unfold ContractMethod.missing_names, ContractMethod.needed_names.
    rewrite Hins'. cbn [bind]. f_equal.
    apply set_eq. intros x. split; [|intros Hx; set_solver].
    rewrite elem_of_difference, elem_of_list_to_set.
    intros [Hneeded Hnot]. exfalso. apply Hnot.
    apply list_elem_of_fmap in Hneeded as (inp & -> & Hinp).
    apply list_elem_of_filter in Hinp as [Hname Hinp].
    apply list_elem_of_In, In_nth_error in Hinp as (i & Hi).
    assert (Hlt : (i < length tokens)%nat).
    { rewrite Hlen. apply nth_error_Some. rewrite Hi. discriminate. }
    destruct (Hargs i inp Hlt Hi) as (v & Hv).
    apply nth_error_In in Hv.
    unfold ContractCallerArgs.convert_result in Hv. cbn [fst snd] in Hv.
    apply String.eqb_neq in Hname. rewrite Hname in Hv. cbn [negb] in Hv.
    apply (given_names_of_arg _ _ _ _ v). apply list_elem_of_In. exact Hv. }
  split; [lia|]. split; [exact Hmissing|].
  apply check_passes. exact Hmissing.
Qed.

End AllByPosition.

(** The witness of X9: the two inputs of [store], by position. *)
Lemma all_inputs_by_position_pass_the_check_witness :
  1 + 1 = Z.of_nat (length [mkInput "a" "uint256"; mkInput "b" "uint256"])
  /\ ContractMethod.missing_names
       (ContractMethod.mk example_abi "store"
          [PDict [(KStr "a", PInt 1)]; PDict [(KStr "b", PInt 2)]])
     = Ok ∅
  /\ ContractMethod.check
       (ContractMethod.mk example_abi "store"
          [PDict [(KStr "a", PInt 1)]; PDict [(KStr "b", PInt 2)]])
     = ([], Ok true).
Proof.
  apply (all_inputs_by_position_pass_the_check example_json_loads
           (ContractMethod.mk example_abi "store" [])
           [mkInput "a" "uint256"; mkInput "b" "uint256"] ["1"; "2"] (1 + 1)
           [PDict [(KStr "a", PInt 1)]; PDict [(KStr "b", PInt 2)]]).
  - vm_compute; reflexivity.
  - repeat constructor.
  - reflexivity.
  - vm_compute; reflexivity.
Defined.

(** ** Bytes out and in *)

Lemma fromhex_hex_byte (b : byte) (rest : string) :
  fromhex (String (hex_char (Byte.to_N b / 16))
                  (String (hex_char (Byte.to_N b mod 16)) rest))
  = (bs <- fromhex rest; Ok (b :: bs)).
Proof. destruct b; reflexivity. Qed.

Lemma fromhex_bytes_hex (bs : list byte) : fromhex (bytes_hex bs) = Ok bs.
Proof.
  induction bs as [|b bs IH]; [reflexivity|].
  cbn [bytes_hex]. rewrite fromhex_hex_byte, IH. reflexivity.
Qed.

Lemma substring_all (s : string) : String.substring 0 (String.length s) s = s.
Proof.
  induction s as [|c s IH]; [reflexivity|].
  cbn [String.length String.substring]. rewrite IH. reflexivity.
Qed.

Lemma startswith_0x (h : string) : startswith ("0x" +:+ h) "0x" = true.
Proof.
  unfold startswith. change ("0x" +:+ h) with (String "0" (String "x" h)).
  cbn [String.prefix].
  destruct (ascii_dec "0" "0"); [|congruence].
  destruct (ascii_dec "x" "x"); [|congruence].
  destruct h; reflexivity.
Qed.

Lemma startswith_byte_rules (ty : string) :
  startswith ty "byte" = true ->
  startswith ty "uint" = false /\ String.eqb ty "bool" = false.
Proof.
  unfold startswith.
  destruct ty as [|c ty]; [discriminate|]. cbn [String.prefix].
  destruct (ascii_dec "b" c) as [<-|]; [|discriminate].
  destruct ty as [|c ty]; [discriminate|]. cbn [String.prefix].
  destruct (ascii_dec "y" c) as [<-|]; [|discriminate].
  intros _. split; reflexivity.
Qed.

(** X10. What a call returns for a [bytes32] output can be given back as an
    argument: the output coercion renders the bytes as "0x" and their
    hexadecimal digits, and the input coercion of a type that starts with
    "byte", and is not an array, reads that text back to the same bytes. *)
Theorem bytes32_output_reads_back_as_input :
  forall (json_loads : string -> result pyval) (cm : ContractMethod.t)
         (o : Output) (outs : list Output) (bs : list byte) (inp : Input),
    ContractMethod.outputs cm = Ok (Some (o :: outs)) ->
    output_type o = "bytes32" ->
    startswith (input_type inp) "byte" = true ->
    endswith (input_type inp) "[]" = false ->
    exists text : string,
      ContractMethod.coerce cm (PBytes bs) = Ok (PStr text)
      /\ text = "0x" +:+ bytes_hex bs
      /\ ContractCallerArgs.coerce_value json_loads inp text = Ok (PBytes bs).
Proof.
  intros json_loads cm o outs bs inp Houts Hty Hbyte Harray.
  exists ("0x" +:+ bytes_hex bs). split; [|split; [reflexivity|]].
  - unfold ContractMethod.coerce. rewrite Houts. cbn [bind].
    rewrite Hty. reflexivity.
  - unfold ContractCallerArgs.coerce_value.
    destruct (startswith_byte_rules _ Hbyte) as [Huint Hbool].
    rewrite Harray, Huint, Hbool, Hbyte.
    rewrite startswith_0x.
    change (String.length ("0x" +:+ bytes_hex bs) - 2)%nat
      with (String.length (bytes_hex bs) - 0)%nat.
    rewrite Nat.sub_0_r.
    change (String.substring 2 (String.length (bytes_hex bs))
              ("0x" +:+ bytes_hex bs))
      with (String.substring 0 (String.length (bytes_hex bs)) (bytes_hex bs)).
    rewrite substring_all, fromhex_bytes_hex. reflexivity.
Qed.

(** The witness of X10: a function that returns a [bytes32], and the
    [bytes32] input [salt]. *)
Lemma bytes32_output_reads_back_as_input_witness :
  exists text : string,
    ContractMethod.coerce
      (ContractMethod.mk
         [mkMethod (Some "root") [] (Some [mkOutput "bytes32"]) "view"]
         "root" [])
      (PBytes [xbe; xef])
    = Ok (PStr text)
    /\ text = "0x" +:+ bytes_hex [xbe; xef]
    /\ ContractCallerArgs.coerce_value example_json_loads
         (mkInput "salt" "bytes32") text
       = Ok (PBytes [xbe; xef]).
Proof.
  apply (bytes32_output_reads_back_as_input example_json_loads
           (ContractMethod.mk
              [mkMethod (Some "root") [] (Some [mkOutput "bytes32"]) "view"]
              "root" [])
           (mkOutput "bytes32") [] [xbe; xef] (mkInput "salt" "bytes32"));
    reflexivity.
Defined.

(** ** What the normaliser returns *)

Lemma make_serializable_clean (data : pyval) :
  clean (make_serializable data) = true.
Proof.
  induction data as [| | | | | |l IH|l IH|items IH|items IH|]
    using pyval_nested_ind; try reflexivity.
  - cbn [make_serializable clean]. apply forallb_forall.
    intros v Hin. apply in_map_iff in Hin as (x & <- & Hx).
    rewrite Forall_forall in IH. apply IH. apply list_elem_of_In. exact Hx.
  - cbn [make_serializable]. unfold serializable_dict_of. cbn [clean].
    apply forallb_forall. intros [k v] Hin. apply andb_true_intro.
    assert (Hall : Forall (fun kv => clean_key kv.1 = true /\ clean kv.2 = true)
                     (dict_of_items
                        (map (fun kv => (make_serializable_key kv.1,
                                         make_serializable kv.2)) items))).
    { apply (dict_update_Forall (fun k => clean_key k = true)
               (fun v => clean v = true)); [constructor|].
      apply Forall_map. eapply Forall_impl; [exact IH|].
      intros [k0 v0] Hv0. cbn [fst snd] in *. split; [|exact Hv0].
      destruct k0; reflexivity. }
    rewrite Forall_forall in Hall.
    apply (Hall (k, v)). apply list_elem_of_In. exact Hin.
  - cbn [make_serializable]. unfold serializable_dict_of. cbn [clean].
    apply forallb_forall. intros [k v] Hin. apply andb_true_intro.
    assert (Hall : Forall (fun kv => clean_key kv.1 = true /\ clean kv.2 = true)
                     (dict_of_items
                        (map (fun kv => (make_serializable_key kv.1,
                                         make_serializable kv.2)) items))).
    { apply (dict_update_Forall (fun k => clean_key k = true)
               (fun v => clean v = true)); [constructor|].
      apply Forall_map. eapply Forall_impl; [exact IH|].
      intros [k0 v0] Hv0. cbn [fst snd] in *. split; [|exact Hv0].
      destruct k0; reflexivity. }
    rewrite Forall_forall in Hall.
    apply (Hall (k, v)). apply list_elem_of_In. exact Hin.
Qed.

(** X11. The result of [make_serializable] holds no [HexBytes] and no
    [AttributeDict], neither as a value nor as a key, anywhere that
    dictionaries and lists lead to; and the keys of the dictionary it
    returns for a mapping are pairwise different, also when several keys of
    the mapping are rendered as the same text. *)
Theorem make_serializable_result_is_plain :
  (forall data : pyval, clean (make_serializable data) = true)
  /\ (forall items : list (key * pyval),
        exists d,
          make_serializable (PDict items) = PDict d
          /\ make_serializable (PAttributeDict items) = PDict d
          /\ keys_wf (map fst d)).
Proof.
  split; [exact make_serializable_clean|].
  intros items. eexists. split; [reflexivity|]. split; [reflexivity|].
  apply dict_update_wf. constructor.
Qed.

(** ** The two paths of [_call] and the explicit flag *)

(** X12. Each path of [_call] stops at the first failure and prints only
    at its end.  The transact path sends the transaction, waits for its
    receipt and prints the normalised receipt, which holds no [HexBytes] and
    no [AttributeDict]; when the sending fails nothing is waited for, and
    when the wait fails nothing is printed.  The call path sends the call and
    prints its coerced output; when the call or the coercion fails nothing
    is printed. *)
Theorem paths_stop_at_the_first_failure :
  forall (w : World) (cm : ContractMethod.t),
    let sent :=
      FunctionsTransact (ContractMethod.function cm) (ContractMethod._args cm)
                        (ContractMethod._kwargs cm) in
    let called :=
      CallerCall (ContractMethod.function cm) (ContractMethod._args cm)
                 (ContractMethod._kwargs cm) in
    (forall e, transact_answer w = Raise e ->
               transact_and_print w cm = ([sent], Raise e))
    /\ (forall h e,
          transact_answer w = Ok h -> receipt_answer w = Raise e ->
          transact_and_print w cm
          = ([sent; WaitForTransactionReceipt h], Raise e))
    /\ (forall h receipt,
          transact_answer w = Ok h -> receipt_answer w = Ok receipt ->
          transact_and_print w cm
          = ([sent; WaitForTransactionReceipt h;
              PrintJson (make_serializable receipt)], Ok tt)
          /\ clean (make_serializable receipt) = true)
    /\ (forall e, call_answer w = Raise e ->
                  call_and_print w cm = ([called], Raise e))
    /\ (forall output e,
          call_answer w = Ok output ->
          ContractMethod.coerce cm output = Raise e ->
          call_and_print w cm = ([called], Raise e))
    /\ (forall output coerced,
          call_answer w = Ok output ->
          ContractMethod.coerce cm output = Ok coerced ->
          call_and_print w cm = ([called; Print coerced], Ok tt)).
Proof.
  intros w cm sent called.
  unfold transact_and_print, call_and_print, ContractMethod.transact,
    ContractMethod.call, io_bind, io_emit, io_lift.
  fold sent. fold called.
  repeat apply conj.
  - intros e ->. reflexivity.
  - intros h e -> ->. reflexivity.
  - intros h receipt -> ->. split; [reflexivity|apply make_serializable_clean].
  - intros e ->. reflexivity.
  - intros output e -> ->. reflexivity.
  - intros output coerced -> ->. reflexivity.
Qed.

(** The witness of X12: the world of the examples answers the sending with
    a hash and the wait with a receipt. *)
Lemma paths_stop_at_the_first_failure_witness :
  transact_and_print example_world
    (ContractMethod.mk example_abi "store" [])
  = ([FunctionsTransact "store" [] [];
      WaitForTransactionReceipt [xbe; xef];
      PrintJson
        (make_serializable
           (PAttributeDict
              [(KStr "transactionHash", PHexBytes [xbe; xef]);
               (KStr "status", PInt 1)]))], Ok tt)
  /\ clean
       (make_serializable
          (PAttributeDict
             [(KStr "transactionHash", PHexBytes [xbe; xef]);
              (KStr "status", PInt 1)])) = true.
Proof.
  destruct (paths_stop_at_the_first_failure example_world
              (ContractMethod.mk example_abi "store" []))
    as (_ & _ & Hprinted & _).
  apply (Hprinted [xbe; xef]); reflexivity.
Defined.

(** X13. An explicit flag is followed without a question in three of its
    four cases, once the pre-flight check has passed: [--no-transact] takes
    the call path whatever the mutability, also for a function that changes
    the state, and [--transact] on a function that is not a "view" takes the
    transact path. *)
Theorem explicit_flag_is_followed_without_question :
  forall (w : World) (cm : ContractMethod.t),
    ContractMethod.missing_names cm = Ok ∅ ->
    _call w (Some false) cm = call_and_print w cm
    /\ forall a : Method,
         ContractMethod.abi cm = Ok a ->
         stateMutability a <> "view" ->
         _call w (Some true) cm = transact_and_print w cm.
Proof.
  intros w cm Hmissing.
  pose proof (check_passes cm Hmissing) as Hcheck.
  split.
  - unfold _call. rewrite Hcheck.
    change (@nil event, Ok true) with (@io_ret bool true).
    rewrite io_bind_ret_l. cbn [negb]. rewrite io_bind_ret_l. reflexivity.
  - intros a Habi Hmut. apply String.eqb_neq in Hmut.
    unfold _call. rewrite Hcheck.
    change (@nil event, Ok true) with (@io_ret bool true).
    rewrite io_bind_ret_l. cbn [negb]. rewrite Habi.
    change (io_lift (Ok a)) with (io_ret a). rewrite io_bind_ret_l.
    rewrite Hmut. cbn [negb]. rewrite io_bind_ret_l. reflexivity.
Qed.

(** The witness of X13: [store] changes the state and has its two inputs. *)
Lemma explicit_flag_is_followed_without_question_witness :
  _call example_world (Some false)
    (ContractMethod.mk example_abi "store"
       [PDict [(KStr "a", PInt 1)]; PDict [(KStr "b", PInt 2)]])
  = call_and_print example_world
      (ContractMethod.mk example_abi "store"
         [PDict [(KStr "a", PInt 1)]; PDict [(KStr "b", PInt 2)]])
  /\ _call example_world (Some true)
       (ContractMethod.mk example_abi "store"
          [PDict [(KStr "a", PInt 1)]; PDict [(KStr "b", PInt 2)]])
     = transact_and_print example_world
         (ContractMethod.mk example_abi "store"
            [PDict [(KStr "a", PInt 1)]; PDict [(KStr "b", PInt 2)]]).
Proof.
  destruct (explicit_flag_is_followed_without_question example_world
              (ContractMethod.mk example_abi "store"
                 [PDict [(KStr "a", PInt 1)]; PDict [(KStr "b", PInt 2)]]))
    as [Hcall Htransact].
  - vm_compute; reflexivity.
  - split; [exact Hcall|].
    apply (Htransact
             (mkMethod (Some "store")
                       [mkInput "a" "uint256"; mkInput "b" "uint256"]
                       (Some []) "nonpayable")).
    + vm_compute; reflexivity.
    + discriminate.
Defined.

(** ** [move_to_time], all its cases *)



(** ** The entry of the function in the ABI *)

Lemma abi_found (cm : ContractMethod.t) (m : Method) :
  ContractMethod.abi cm = Ok m
  <-> exists pre post,
        ContractMethod.eth_abi cm = pre ++ m :: post
        /\ method_name m = Some (ContractMethod.function cm)
        /\ Forall (fun x => method_name x <> Some (ContractMethod.function cm))
                  pre.
Proof.
  unfold ContractMethod.abi.
  generalize (ContractMethod.eth_abi cm) as l.
  generalize (ContractMethod.function cm) as f. intros f l.
  induction l as [|x l IH].
  - split; [discriminate|]. intros (pre & post & H & _).
    destruct pre; discriminate.
  - rewrite filter_cons. destruct (decide (method_name x = Some f)) as [Hx|Hx].
    + split.
      * intros [= <-]. exists [], l. repeat split; [exact Hx|constructor].
      * intros (pre & post & Heq & Hm & Hpre).
        destruct pre as [|y pre].
        -- injection Heq as -> _. reflexivity.
        -- injection Heq as -> _. inversion Hpre; subst. contradiction.
    + rewrite IH. split.
      * intros (pre & post & -> & Hm & Hpre).
        exists (x :: pre), post. repeat split; [exact Hm|].
        constructor; assumption.
      * intros (pre & post & Heq & Hm & Hpre).
        destruct pre as [|y pre].
        -- injection Heq as -> _. contradiction.
        -- injection Heq as -> ->. inversion Hpre; subst.
           exists pre, post. repeat split; assumption.
Qed.

Lemma abi_not_found (cm : ContractMethod.t) :
  Forall (fun x => method_name x <> Some (ContractMethod.function cm))
         (ContractMethod.eth_abi cm) ->
  ContractMethod.abi cm = Raise IndexError.
Proof.
  unfold ContractMethod.abi.
  generalize (ContractMethod.eth_abi cm) as l. intros l H.
  induction H as [|x l Hx Hl IH]; [reflexivity|].
  rewrite filter_cons, decide_False by exact Hx. exact IH.
Qed.

(** X15. The entry of the ABI that describes the function is the first one
    that bears its name: when the ABI has several entries of one name, as
    for an overloaded function, the inputs, outputs and mutability of the
    first are used.  When no entry bears the name, [_call] raises
    [IndexError] before it logs, asks or sends anything. *)
Theorem abi_entry_is_the_first_of_that_name :
  forall cm : ContractMethod.t,
    (forall m : Method,
       ContractMethod.abi cm = Ok m
       <-> exists pre post,
             ContractMethod.eth_abi cm = pre ++ m :: post
             /\ method_name m = Some (ContractMethod.function cm)
             /\ Forall (fun x => method_name x
                                 <> Some (ContractMethod.function cm)) pre)
    /\ (Forall (fun x => method_name x <> Some (ContractMethod.function cm))
               (ContractMethod.eth_abi cm) ->
        forall (w : World) (transact : option bool),
          _call w transact cm = ([], Raise IndexError)).
Proof.
  intros cm. split; [apply abi_found|].
  intros Hnone w transact.
  unfold _call, ContractMethod.check, ContractMethod.missing_names,
    ContractMethod.needed_names, ContractMethod.inputs.
  rewrite (abi_not_found cm Hnone). reflexivity.
Qed.

(** The witness of X15: a function declared twice takes its first entry,
    and a function that the ABI does not have stops the command. *)
Lemma abi_entry_is_the_first_of_that_name_witness :
  ContractMethod.abi
    (ContractMethod.mk
       [mkMethod (Some "mint") [mkInput "to" "address"] None "nonpayable";
        mkMethod (Some "mint")
                 [mkInput "to" "address"; mkInput "amount" "uint256"]
                 None "nonpayable"]
       "mint" [])
  = Ok (mkMethod (Some "mint") [mkInput "to" "address"] None "nonpayable")
  /\ _call example_world None (ContractMethod.mk example_abi "burn" [])
     = ([], Raise IndexError).
Proof.
  split.
  - apply (abi_entry_is_the_first_of_that_name
             (ContractMethod.mk
                [mkMethod (Some "mint") [mkInput "to" "address"] None
                          "nonpayable";
                 mkMethod (Some "mint")
                          [mkInput "to" "address"; mkInput "amount" "uint256"]
                          None "nonpayable"]
                "mint" [])).
    exists [], [mkMethod (Some "mint")
                         [mkInput "to" "address"; mkInput "amount" "uint256"]
                         None "nonpayable"].
    split; [reflexivity|]. split; [reflexivity|constructor].
  - apply (abi_entry_is_the_first_of_that_name
             (ContractMethod.mk example_abi "burn" [])).
    repeat (constructor; [discriminate|]). constructor.
Defined.

(** ** The completions *)

(** X16. The completions that [choices] proposes are the names still
    missing, each followed by "=": a text is proposed exactly when it is
    [n=] for a declared input name [n] that is not empty and has not been
    given yet.  A name that has been given is not proposed again. *)
Theorem choices_are_the_missing_names :
  forall (cm : ContractMethod.t) (ins : list Input),
    ContractMethod.inputs cm = Ok ins ->
    exists proposed : list string,
      choices cm = Ok proposed
      /\ forall s : string,
           s ∈ proposed
           <-> exists n : string,
                 s = n +:+ "="
                 /\ n <> ""
                 /\ (exists inp, inp ∈ ins /\ input_name inp = n)
                 /\ n ∉ ContractMethod.given_names cm.
Proof.
  intros cm ins Hins.
  unfold choices, ContractMethod.missing_names, ContractMethod.needed_names.
  rewrite Hins. cbn [bind]. eexists. split; [reflexivity|].
  intros s. rewrite list_elem_of_fmap. split.
  - intros (n & -> & Hn). exists n. split; [reflexivity|].
    apply elem_of_elements, elem_of_difference in Hn as [Hneeded Hnot].
    apply elem_of_list_to_set, list_elem_of_fmap in Hneeded
      as (inp & -> & Hinp).
    apply list_elem_of_filter in Hinp as [Hname Hinp].
    split; [exact Hname|]. split; [|exact Hnot].
    exists inp. split; [exact Hinp|reflexivity].
  - intros (n & -> & Hname & (inp & Hinp & <-) & Hnot).
    exists (input_name inp). split; [reflexivity|].
    apply elem_of_elements, elem_of_difference. split; [|exact Hnot].
    apply elem_of_list_to_set, list_elem_of_fmap.
    exists inp. split; [reflexivity|].
    apply list_elem_of_filter. split; assumption.
Qed.

(** The witness of X16: after [a=1], [store] proposes ["b="] alone. *)
Lemma choices_are_the_missing_names_witness :
  exists proposed : list string,
    choices (ContractMethod.mk example_abi "store"
               [PDict [(KStr "a", PInt 1)]])
    = Ok proposed
    /\ forall s : string,
         s ∈ proposed
         <-> exists n : string,
               s = n +:+ "="
               /\ n <> ""
               /\ (exists inp,
                     inp ∈ [mkInput "a" "uint256"; mkInput "b" "uint256"]
                     /\ input_name inp = n)
               /\ n ∉ ContractMethod.given_names
                        (ContractMethod.mk example_abi "store"
                           [PDict [(KStr "a", PInt 1)]]).
Proof.
  apply (choices_are_the_missing_names
           (ContractMethod.mk example_abi "store"
              [PDict [(KStr "a", PInt 1)]])
           [mkInput "a" "uint256"; mkInput "b" "uint256"]).
  vm_compute; reflexivity.
Defined.
